(** * InfiniteRealms: the turn-resolution engine, embedded and verified

    A shallow embedding of the state-transition code of the game client
    ([App.tsx]: [calculateRelationshipStatus], [handleStartGame],
    [handleUnlockSkill], [handleOpenCodex], [handleChoice], and
    [services/geminiService.ts]: the response cache of
    [generateAdventureNode]), followed by the properties of the
    specification that concern it.

    Conventions of the embedding.
    - A JavaScript [number] that the response schema declares as INTEGER is
      a [Z]; no wrap-around exists in the source, so none is modelled.
    - An optional field ([f?: T]) is an [option]; [null] in a
      [T | null] field of [GameState] is [None]. The provider may also
      send [null] in a field of the payload (the template of the prompt
      shows it); wherever the code tests the truthiness of the field,
      [null] behaves as the absent field and is not told apart from it. The
      one field tested against [undefined] is [enemyHealth], whose [null]
      is modelled.
    - The operator [a || d] is written out with the truthiness of the
      operand's type: [0] and the empty string are falsy, every array is
      truthy.
    - A [Record<string, _>] is a [gmap string _]; arrays are lists, indexed
      with [!!] and updated in place with [<[i:=x]>].
    - Timers and presentation hints ([triggerEffect], [setNotification],
      [setTimeout]) do not feed back into the game state and are left out. *)

From Stdlib Require Import ZArith Ascii String.
From stdpp Require Import base decidable option list strings pretty gmap.

Local Open Scope string_scope.
Local Open Scope list_scope.
Local Open Scope Z_scope.

(** ** JavaScript truthiness *)

(** [x || d] for a number [x]. *)
Definition num_or (x d : Z) : Z := if bool_decide (x = 0) then d else x.

(** [o || d] for an optional number [o] (also [o?.f || d]). *)
Definition optnum_or (o : option Z) (d : Z) : Z :=
  match o with
  | Some x => num_or x d
  | None => d
  end.

(** Truthiness of an optional string: present and not empty. *)
Definition truthy_str (o : option string) : bool :=
  match o with
  | Some s => negb (bool_decide (s = EmptyString))
  | None => false
  end.

(** [o || d] for an optional string [o]. *)
Definition optstr_or (o : option string) (d : string) : string :=
  match o with
  | Some s => if bool_decide (s = EmptyString) then d else s
  | None => d
  end.

(** Truthiness of an optional boolean. *)
Definition truthy_bool (o : option bool) : bool :=
  match o with
  | Some b => b
  | None => false
  end.

(** ** Data model ([types.ts]) *)

Module PlayerStats.
Record t : Type := mk {
  strength : Z;
  agility : Z;
  intelligence : Z;
  charisma : Z
}.
End PlayerStats.

(** [Partial<PlayerStats & { health: number }>] *)
Module StatsUpdate.
Record t : Type := mk {
  health : option Z;
  strength : option Z;
  agility : option Z;
  intelligence : option Z;
  charisma : option Z
}.
End StatsUpdate.

Inductive Category : Type := Lore | Person | Location | History | Item.

Module CodexEntry.
Record t : Type := mk {
  id : string;
  title : string;
  category : Category;
  content : string;
  turnUnlocked : Z;
  isNew : option bool
}.
End CodexEntry.

(** [Omit<CodexEntry, 'turnUnlocked' | 'isNew'>] *)
Module CodexProposal.
Record t : Type := mk {
  id : string;
  title : string;
  category : Category;
  content : string
}.
End CodexProposal.

(** The [status] field is declared as a union of string literals, but the
    code stores the payload's [newStatus] string through a cast, without
    validation; the field therefore holds an arbitrary string. *)
Module NPC.
Record t : Type := mk {
  id : string;
  name : string;
  description : string;
  affinity : Z;
  status : string
}.
End NPC.

Module RelationshipUpdate.
Record t : Type := mk {
  npcId : string;
  npcName : string;
  npcDescription : option string;
  affinityChange : Z;
  newStatus : option string
}.
End RelationshipUpdate.

Inductive EventType : Type := danger | opportunity | flavor.

Module WorldEvent.
Record t : Type := mk {
  id : string;
  type : EventType;
  title : string;
  description : string
}.
End WorldEvent.

Module PlayerPersona.
Record t : Type := mk {
  id : option string;
  name : string;
  gender : string;
  appearance : string;
  backstory : string;
  personality : string
}.
End PlayerPersona.

(** [string | boolean | number] *)
Inductive FlagValue : Type :=
  | FlagString (s : string)
  | FlagBool (b : bool)
  | FlagNumber (n : Z).

(** [enemyHealth] is read with [!== undefined]: [None] is the field left
    out, [Some None] the field sent as [null], [Some (Some h)] a number. *)
Module AdventureNode.
Record t : Type := mk {
  storySegment : string;
  choices : list string;
  inventory : list string;
  currentQuest : string;
  locationName : string;
  summary : option string;
  statsUpdate : option StatsUpdate.t;
  worldUpdates : option (gmap string FlagValue);
  isCombat : option bool;
  enemyName : option string;
  enemyHealth : option (option Z);
  enemyMaxHealth : option Z;
  enemyAbilities : option (list string);
  xpAward : option Z;
  newCodexEntries : option (list CodexProposal.t);
  relationshipUpdates : option (list RelationshipUpdate.t);
  events : option (list WorldEvent.t)
}.
End AdventureNode.

Module GameState.
Record t : Type := mk {
  inventory : list string;
  quest : string;
  location : string;
  genre : string;
  health : Z;
  maxHealth : Z;
  turnCount : Z;
  stats : PlayerStats.t;
  worldState : gmap string FlagValue;
  inCombat : bool;
  enemyName : option string;
  enemyHealth : option Z;
  enemyMaxHealth : option Z;
  enemyAbilities : option (list string);
  xp : Z;
  level : Z;
  skillPoints : Z;
  unlockedSkills : list string;
  codex : list CodexEntry.t;
  relationships : list NPC.t;
  persona : PlayerPersona.t
}.
End GameState.

Inductive AIProvider : Type := gemini | openai.

Module GameSettings.
Record t : Type := mk {
  apiKey : string;
  model : string;
  baseUrl : option string;
  provider : option AIProvider
}.
End GameSettings.

Inductive StatName : Type := Strength | Agility | Intelligence | Charisma.

Module Skill.
Record t : Type := mk {
  id : string;
  name : string;
  description : string;
  stat : StatName;
  minVal : Z;
  cost : Z
}.
End Skill.

Definition SKILL_TREE : list Skill.t := [
  Skill.mk "power_strike" "Power Strike" "Deal massive damage when attacking aggressively." Strength 3 1;
  Skill.mk "iron_skin" "Iron Skin" "Significantly reduce incoming damage." Strength 5 1;
  Skill.mk "titan_grip" "Titan Grip" "Wield heavy weapons with ease and intimidate foes." Strength 7 1;
  Skill.mk "shadow_step" "Shadow Step" "Evade attacks and strike from the blind spot." Agility 3 1;
  Skill.mk "precision" "Precision" "Attacks target weak points for critical effects." Agility 5 1;
  Skill.mk "reflexes" "Lightning Reflexes" "Always act first and dodge area attacks." Agility 7 1;
  Skill.mk "analyze" "Tactical Analysis" "Reveal enemy weaknesses and upcoming moves." Intelligence 3 1;
  Skill.mk "arcane_mind" "Arcane Mind" "Understand ancient tech/magic and solve complex puzzles." Intelligence 5 1;
  Skill.mk "mastermind" "Mastermind" "Manipulate the environment to your advantage." Intelligence 7 1;
  Skill.mk "silver_tongue" "Silver Tongue" "Talk your way out of almost any fight." Charisma 3 1;
  Skill.mk "inspiration" "Inspiring Presence" "Allies (NPCs) fight harder and you recover morale/health faster." Charisma 5 1;
  Skill.mk "dominate" "Commanding Will" "Force weaker enemies to surrender or flee." Charisma 7 1
].

(** ** Relationship status from affinity ([calculateRelationshipStatus]) *)

Definition calculateRelationshipStatus (affinity : Z) : string :=
  if bool_decide (affinity < 10) then "Enemy"
  else if bool_decide (affinity < 25) then "Stranger"
  else if bool_decide (affinity < 45) then "Acquaintance"
  else if bool_decide (affinity < 65) then "Friend"
  else if bool_decide (affinity < 85) then "Confidant"
  else "Close Friend".

(** ** Starting a game ([handleStartGame], after [startGame] has returned) *)

Definition defaultPersona : PlayerPersona.t :=
  PlayerPersona.mk None "Traveler" "Unknown" "Unknown" "Unknown" "Neutral".

(** [initialNode.statsUpdate?.f || d] *)
Definition statsField (f : StatsUpdate.t -> option Z)
    (u : option StatsUpdate.t) (d : Z) : Z :=
  optnum_or (u ≫= f) d.

Definition initialCodexEntry (entry : CodexProposal.t) : CodexEntry.t :=
  CodexEntry.mk (CodexProposal.id entry) (CodexProposal.title entry)
    (CodexProposal.category entry) (CodexProposal.content entry)
    1 (Some true).

Definition initialRelationship (u : RelationshipUpdate.t) : NPC.t :=
  let baseStatus := RelationshipUpdate.newStatus u in
  NPC.mk (RelationshipUpdate.npcId u) (RelationshipUpdate.npcName u)
    (optstr_or (RelationshipUpdate.npcDescription u) "Unknown")
    (50 + RelationshipUpdate.affinityChange u)
    (optstr_or baseStatus
       (calculateRelationshipStatus (50 + RelationshipUpdate.affinityChange u))).

Definition handleStartGame (genre : string) (persona : option PlayerPersona.t)
    (initialNode : AdventureNode.t) : GameState.t :=
  let su := AdventureNode.statsUpdate initialNode in
  let initialStats :=
    PlayerStats.mk (statsField StatsUpdate.strength su 5)
      (statsField StatsUpdate.agility su 5)
      (statsField StatsUpdate.intelligence su 5)
      (statsField StatsUpdate.charisma su 5) in
  let initialCodex :=
    initialCodexEntry <$> default [] (AdventureNode.newCodexEntries initialNode) in
  let initialRelationships :=
    match AdventureNode.relationshipUpdates initialNode with
    | Some us => initialRelationship <$> us
    | None => []
    end in
  {| GameState.inventory := AdventureNode.inventory initialNode;
     GameState.quest := AdventureNode.currentQuest initialNode;
     GameState.location := AdventureNode.locationName initialNode;
     GameState.genre := genre;
     GameState.health := statsField StatsUpdate.health su 100;
     GameState.maxHealth := 100;
     GameState.turnCount := 1;
     GameState.stats := initialStats;
     GameState.worldState := default ∅ (AdventureNode.worldUpdates initialNode);
     GameState.inCombat := false;
     GameState.enemyName := None;
     GameState.enemyHealth := None;
     GameState.enemyMaxHealth := None;
     GameState.enemyAbilities := None;
     GameState.xp := 0;
     GameState.level := 1;
     GameState.skillPoints := 0;
     GameState.unlockedSkills := [];
     GameState.codex := initialCodex;
     GameState.relationships := initialRelationships;
     GameState.persona := default defaultPersona persona |}.

(** ** Player-invoked operations *)

(** Functional update of the fields the operations below touch. *)
Definition withSkills (prev : GameState.t) (points : Z) (skills : list string)
    : GameState.t :=
  {| GameState.inventory := GameState.inventory prev;
     GameState.quest := GameState.quest prev;
     GameState.location := GameState.location prev;
     GameState.genre := GameState.genre prev;
     GameState.health := GameState.health prev;
     GameState.maxHealth := GameState.maxHealth prev;
     GameState.turnCount := GameState.turnCount prev;
     GameState.stats := GameState.stats prev;
     GameState.worldState := GameState.worldState prev;
     GameState.inCombat := GameState.inCombat prev;
     GameState.enemyName := GameState.enemyName prev;
     GameState.enemyHealth := GameState.enemyHealth prev;
     GameState.enemyMaxHealth := GameState.enemyMaxHealth prev;
     GameState.enemyAbilities := GameState.enemyAbilities prev;
     GameState.xp := GameState.xp prev;
     GameState.level := GameState.level prev;
     GameState.skillPoints := points;
     GameState.unlockedSkills := skills;
     GameState.codex := GameState.codex prev;
     GameState.relationships := GameState.relationships prev;
     GameState.persona := GameState.persona prev |}.

Definition withCodex (prev : GameState.t) (codex : list CodexEntry.t)
    : GameState.t :=
  {| GameState.inventory := GameState.inventory prev;
     GameState.quest := GameState.quest prev;
     GameState.location := GameState.location prev;
     GameState.genre := GameState.genre prev;
     GameState.health := GameState.health prev;
     GameState.maxHealth := GameState.maxHealth prev;
     GameState.turnCount := GameState.turnCount prev;
     GameState.stats := GameState.stats prev;
     GameState.worldState := GameState.worldState prev;
     GameState.inCombat := GameState.inCombat prev;
     GameState.enemyName := GameState.enemyName prev;
     GameState.enemyHealth := GameState.enemyHealth prev;
     GameState.enemyMaxHealth := GameState.enemyMaxHealth prev;
     GameState.enemyAbilities := GameState.enemyAbilities prev;
     GameState.xp := GameState.xp prev;
     GameState.level := GameState.level prev;
     GameState.skillPoints := GameState.skillPoints prev;
     GameState.unlockedSkills := GameState.unlockedSkills prev;
     GameState.codex := codex;
     GameState.relationships := GameState.relationships prev;
     GameState.persona := GameState.persona prev |}.

Definition handleUnlockSkill (prev : GameState.t) (skillId : string)
    : GameState.t :=
  match list_find (λ s, Skill.id s = skillId) SKILL_TREE with
  | None => prev
  | Some (_, skill) =>
      if bool_decide (Skill.cost skill ≤ GameState.skillPoints prev)
         && negb (bool_decide (skillId ∈ GameState.unlockedSkills prev))
      then withSkills prev (GameState.skillPoints prev - Skill.cost skill)
             (GameState.unlockedSkills prev ++ [skillId])
      else prev
  end.

Definition markSeen (c : CodexEntry.t) : CodexEntry.t :=
  CodexEntry.mk (CodexEntry.id c) (CodexEntry.title c) (CodexEntry.category c)
    (CodexEntry.content c) (CodexEntry.turnUnlocked c) (Some false).

Definition handleOpenCodex (prev : GameState.t) : GameState.t :=
  withCodex prev (markSeen <$> GameState.codex prev).

(** ** Resolving a turn ([handleChoice], steps A to I)

    The steps are the blocks of [handleChoice] that run once the payload
    [newNode] has arrived; local names are those of the source. *)

(** *** Step A: stats *)

Definition stepA (gameState : GameState.t) (newNode : AdventureNode.t)
    : PlayerStats.t :=
  let s := GameState.stats gameState in
  let u := AdventureNode.statsUpdate newNode in
  PlayerStats.mk
    (num_or (PlayerStats.strength s) 0 + statsField StatsUpdate.strength u 0)
    (num_or (PlayerStats.agility s) 0 + statsField StatsUpdate.agility u 0)
    (num_or (PlayerStats.intelligence s) 0 + statsField StatsUpdate.intelligence u 0)
    (num_or (PlayerStats.charisma s) 0 + statsField StatsUpdate.charisma u 0).

(** *** Step B: combat and enemy state *)

Record Encounter : Type := mkEncounter {
  nextInCombat : bool;
  nextEnemyName : option string;
  nextEnemyHealth : option Z;
  nextEnemyMaxHealth : option Z;
  nextEnemyAbilities : option (list string)
}.

(** [!gameState.inCombat ||
     (newNode.enemyName && newNode.enemyName !== gameState.enemyName)] *)
Definition startsEngagement (gameState : GameState.t)
    (newNode : AdventureNode.t) : bool :=
  negb (GameState.inCombat gameState)
  || (truthy_str (AdventureNode.enemyName newNode)
      && negb (bool_decide
                 (AdventureNode.enemyName newNode = GameState.enemyName gameState))).

Definition stepB (gameState : GameState.t) (newNode : AdventureNode.t)
    : Encounter :=
  if truthy_bool (AdventureNode.isCombat newNode) then
    if startsEngagement gameState newNode then
      let maxHealth := optnum_or (AdventureNode.enemyMaxHealth newNode) 100 in
      {| nextInCombat := true;
         nextEnemyName :=
           Some (optstr_or (AdventureNode.enemyName newNode) "Unknown Enemy");
         nextEnemyMaxHealth := Some maxHealth;
         nextEnemyHealth :=
           match AdventureNode.enemyHealth newNode with
           | Some h => h
           | None => Some maxHealth
           end;
         nextEnemyAbilities :=
           Some (default [] (AdventureNode.enemyAbilities newNode)) |}
    else
      {| nextInCombat := GameState.inCombat gameState;
         nextEnemyName := GameState.enemyName gameState;
         nextEnemyMaxHealth := GameState.enemyMaxHealth gameState;
         nextEnemyHealth :=
           match AdventureNode.enemyHealth newNode with
           | Some h => h
           | None => GameState.enemyHealth gameState
           end;
         nextEnemyAbilities :=
           match AdventureNode.enemyAbilities newNode with
           | Some (a :: l) => Some (a :: l)
           | _ => GameState.enemyAbilities gameState
           end |}
  else
    {| nextInCombat := false;
       nextEnemyName := None;
       nextEnemyHealth := None;
       nextEnemyMaxHealth := None;
       nextEnemyAbilities := None |}.

(** *** Step C: health *)

Definition healthChange (newNode : AdventureNode.t) : Z :=
  statsField StatsUpdate.health (AdventureNode.statsUpdate newNode) 0.

(** The health after the two comparisons of step C. *)
Definition stepC (gameState : GameState.t) (newNode : AdventureNode.t) : Z :=
  let newHealth := GameState.health gameState + healthChange newNode in
  let newMaxHealth := GameState.maxHealth gameState in
  let newHealth :=
    if bool_decide (newMaxHealth < newHealth) then newMaxHealth else newHealth in
  if bool_decide (newHealth < 0) then 0 else newHealth.

(** *** Step D: experience and level *)

Record Progress : Type := mkProgress {
  currentXP : Z;
  currentLevel : Z;
  currentSkillPoints : Z;
  newHealth : Z;
  newMaxHealth : Z;
  leveledUp : bool
}.

Definition stepD (gameState : GameState.t) (newNode : AdventureNode.t)
    : Progress :=
  let xpAward := optnum_or (AdventureNode.xpAward newNode) 0 in
  let currentXP := num_or (GameState.xp gameState) 0 + xpAward in
  let currentLevel := num_or (GameState.level gameState) 1 in
  let currentSkillPoints := num_or (GameState.skillPoints gameState) 0 in
  let xpThreshold := currentLevel * 100 in
  if bool_decide (xpThreshold ≤ currentXP) then
    {| currentXP := currentXP - xpThreshold;
       currentLevel := currentLevel + 1;
       currentSkillPoints := currentSkillPoints + 1;
       newHealth := stepC gameState newNode + 10;
       newMaxHealth := GameState.maxHealth gameState + 10;
       leveledUp := true |}
  else
    {| currentXP := currentXP;
       currentLevel := currentLevel;
       currentSkillPoints := currentSkillPoints;
       newHealth := stepC gameState newNode;
       newMaxHealth := GameState.maxHealth gameState;
       leveledUp := false |}.

(** *** Step E: codex *)

(** [currentCodex.some(c => c.id === entry.id || c.title === entry.title)] *)
Definition codexExists (currentCodex : list CodexEntry.t)
    (entry : CodexProposal.t) : bool :=
  bool_decide (Exists (λ c, CodexEntry.id c = CodexProposal.id entry
                            ∨ CodexEntry.title c = CodexProposal.title entry)
                 currentCodex).

Definition stampEntry (turn : Z) (entry : CodexProposal.t) : CodexEntry.t :=
  CodexEntry.mk (CodexProposal.id entry) (CodexProposal.title entry)
    (CodexProposal.category entry) (CodexProposal.content entry)
    turn (Some true).

(** The body of [newEntries.forEach], with [validNewEntries] as the
    accumulator. *)
Definition admitEntry (gameState : GameState.t)
    (validNewEntries : list CodexEntry.t) (entry : CodexProposal.t)
    : list CodexEntry.t :=
  if codexExists (GameState.codex gameState) entry then validNewEntries
  else validNewEntries ++ [stampEntry (GameState.turnCount gameState + 1) entry].

Definition validNewEntries (gameState : GameState.t)
    (newNode : AdventureNode.t) : list CodexEntry.t :=
  foldl (admitEntry gameState) []
    (default [] (AdventureNode.newCodexEntries newNode)).

Definition stepE (gameState : GameState.t) (newNode : AdventureNode.t)
    : list CodexEntry.t :=
  GameState.codex gameState ++ validNewEntries gameState newNode.

(** *** Step F: relationships *)

(** [Math.max(0, Math.min(100, a))] *)
Definition clampAffinity (a : Z) : Z := Z.max 0 (Z.min 100 a).

Definition stickyStatuses : list string :=
  ["Rival"; "Crush"; "Partner"; "Nemesis"; "Complicated"; "Mentor";
   "Protege"; "Ally"; "Confidant"].

(** The status written for an existing NPC: the explicit override if it is
    truthy, otherwise the sticky rule or the thresholds; the closing
    [newStatus || calculateRelationshipStatus(newAffinity)] of the record
    literal is kept. *)
Definition resolveStatus (npc : NPC.t) (update : RelationshipUpdate.t)
    (newAffinity : Z) : string :=
  let newStatus := RelationshipUpdate.newStatus update in
  let newStatus :=
    if negb (truthy_str newStatus) then
      if bool_decide (NPC.status npc ∈ stickyStatuses) then
        if bool_decide (newAffinity < 10)
           && negb (bool_decide (NPC.status npc = "Nemesis"))
           && negb (bool_decide (NPC.status npc = "Enemy"))
        then Some "Enemy"
        else Some (NPC.status npc)
      else Some (calculateRelationshipStatus newAffinity)
    else newStatus in
  optstr_or newStatus (calculateRelationshipStatus newAffinity).

Definition updateExisting (npc : NPC.t) (update : RelationshipUpdate.t)
    : NPC.t :=
  let newAffinity :=
    clampAffinity (NPC.affinity npc + RelationshipUpdate.affinityChange update) in
  {| NPC.id := NPC.id npc;
     NPC.name := NPC.name npc;
     NPC.affinity := newAffinity;
     NPC.status := resolveStatus npc update newAffinity;
     NPC.description :=
       optstr_or (RelationshipUpdate.npcDescription update) (NPC.description npc) |}.

Definition newNPC (update : RelationshipUpdate.t) : NPC.t :=
  let newAffinity :=
    clampAffinity (50 + RelationshipUpdate.affinityChange update) in
  let baseStatus := RelationshipUpdate.newStatus update in
  {| NPC.id := RelationshipUpdate.npcId update;
     NPC.name := RelationshipUpdate.npcName update;
     NPC.description :=
       optstr_or (RelationshipUpdate.npcDescription update) "Newly met";
     NPC.affinity := newAffinity;
     NPC.status :=
       optstr_or baseStatus (calculateRelationshipStatus newAffinity) |}.

(** [r => r.id === update.npcId || r.name === update.npcName] *)
Definition targets (update : RelationshipUpdate.t) (r : NPC.t) : Prop :=
  NPC.id r = RelationshipUpdate.npcId update
  ∨ NPC.name r = RelationshipUpdate.npcName update.

#[global] Instance targets_dec update r : Decision (targets update r).
Proof. unfold targets. apply _. Defined.

(** The body of [newNode.relationshipUpdates.forEach]: the pair is
    [(nextRelationships, socialSuccess)]. *)
Definition applyUpdate (acc : list NPC.t * bool)
    (update : RelationshipUpdate.t) : list NPC.t * bool :=
  let '(nextRelationships, socialSuccess) := acc in
  match list_find (targets update) nextRelationships with
  | Some (index, npc) =>
      (<[index := updateExisting npc update]> nextRelationships,
       socialSuccess
       || bool_decide (5 < RelationshipUpdate.affinityChange update))
  | None =>
      (nextRelationships ++ [newNPC update],
       socialSuccess
       || bool_decide (0 < RelationshipUpdate.affinityChange update))
  end.

Definition stepF (gameState : GameState.t) (newNode : AdventureNode.t)
    : list NPC.t * bool :=
  foldl applyUpdate (GameState.relationships gameState, false)
    (default [] (AdventureNode.relationshipUpdates newNode)).

(** *** Step G: the event surfaced to the player ([newNode.events[0]]) *)

Definition stepG (newNode : AdventureNode.t) : option WorldEvent.t :=
  AdventureNode.events newNode ≫= head.

(** *** Step I: the next game state *)

Definition resolveTurn (gameState : GameState.t) (newNode : AdventureNode.t)
    : GameState.t :=
  let newStats := stepA gameState newNode in
  let enc := stepB gameState newNode in
  let prog := stepD gameState newNode in
  let nextCodex := stepE gameState newNode in
  let nextRelationships := fst (stepF gameState newNode) in
  {| GameState.inventory := AdventureNode.inventory newNode;
     GameState.quest := AdventureNode.currentQuest newNode;
     GameState.location := AdventureNode.locationName newNode;
     GameState.genre := GameState.genre gameState;
     GameState.turnCount := GameState.turnCount gameState + 1;
     GameState.stats := newStats;
     GameState.health := newHealth prog;
     GameState.maxHealth := newMaxHealth prog;
     GameState.worldState :=
       default ∅ (AdventureNode.worldUpdates newNode)
       ∪ GameState.worldState gameState;
     GameState.inCombat := nextInCombat enc;
     GameState.enemyName := nextEnemyName enc;
     GameState.enemyHealth := nextEnemyHealth enc;
     GameState.enemyMaxHealth := nextEnemyMaxHealth enc;
     GameState.enemyAbilities := nextEnemyAbilities enc;
     GameState.xp := currentXP prog;
     GameState.level := currentLevel prog;
     GameState.skillPoints := currentSkillPoints prog;
     GameState.unlockedSkills := GameState.unlockedSkills gameState;
     GameState.codex := nextCodex;
     GameState.relationships := nextRelationships;
     GameState.persona := GameState.persona gameState |}.

(** ** The response cache ([geminiService.ts]) *)

(** The object handed to [JSON.stringify] to form the cache key. The
    serialisation of an object with these six string fields, always in this
    order, determines the six strings, so two keys are the same string
    exactly when the objects agree field by field; the key is modelled by
    the object. *)
Module CacheKey.
Record t : Type := mk {
  provider : AIProvider;
  model : string;
  state : string;
  last : string;
  summary : string;
  choice : string
}.
End CacheKey.

#[global] Instance AIProvider_eq_dec : EqDecision AIProvider.
Proof. solve_decision. Defined.

#[global] Instance CacheKey_eq_dec : EqDecision CacheKey.t.
Proof. solve_decision. Defined.

(** [const responseCache = new Map<string, AdventureNode>()]: a JavaScript
    [Map] iterates in insertion order, and [set] on a key that is present
    keeps its position. *)
Abbreviation Cache := (list (CacheKey.t * AdventureNode.t)).

Definition CACHE_LIMIT : nat := 50.

(** [responseCache.has(k)] followed by [responseCache.get(k)]: [None] when
    the key is not present. *)
Definition cache_get (k : CacheKey.t) (c : Cache) : option AdventureNode.t :=
  (λ p, p.2.2) <$> list_find (λ e, e.1 = k) c.

Definition cache_delete (k : CacheKey.t) (c : Cache) : Cache :=
  filter (λ e, e.1 ≠ k) c.

Definition cache_set (k : CacheKey.t) (v : AdventureNode.t) (c : Cache)
    : Cache :=
  match list_find (λ e, e.1 = k) c with
  | Some (i, _) => <[i := (k, v)]> c
  | None => c ++ [(k, v)]
  end.

(** [responseCache.keys().next().value] *)
Definition cache_firstKey (c : Cache) : option CacheKey.t := fst <$> head c.

(** The block under the comment "Save to Cache". *)
Definition cache_save (k : CacheKey.t) (v : AdventureNode.t) (c : Cache)
    : Cache :=
  let c :=
    if bool_decide (CACHE_LIMIT ≤ length c)%nat then
      match cache_firstKey c with
      | Some firstKey => cache_delete firstKey c
      | None => c
      end
    else c in
  cache_set k v c.

(** *** Normalising the action: [choice.trim().toLowerCase()], on ASCII *)

Definition isSpace (a : ascii) : bool :=
  let n := nat_of_ascii a in
  bool_decide (n = 32 ∨ 9 ≤ n ≤ 13)%nat.

Definition lowerChar (a : ascii) : ascii :=
  let n := nat_of_ascii a in
  if bool_decide (65 ≤ n ≤ 90)%nat then ascii_of_nat (n + 32) else a.

Fixpoint trimStart (s : string) : string :=
  match s with
  | String a s' => if isSpace a then trimStart s' else s
  | EmptyString => EmptyString
  end.

Definition trim (s : string) : string :=
  String.rev (trimStart (String.rev (trimStart s))).

Fixpoint toLowerCase (s : string) : string :=
  match s with
  | String a s' => String (lowerChar a) (toLowerCase s')
  | EmptyString => EmptyString
  end.

(** [s.includes(sub)] *)
Fixpoint includes (s sub : string) : bool :=
  String.prefix sub s
  || match s with
     | String _ s' => includes s' sub
     | EmptyString => false
     end.

(** [settings?.model || "gemini-2.5-flash"] *)
Definition getModelName (settings : option GameSettings.t) : string :=
  optstr_or (GameSettings.model <$> settings) "gemini-2.5-flash".

(** A result of an [async] function: the message of the [Error] thrown, or
    the value returned. *)
Inductive Outcome (A : Type) : Type :=
  | Thrown (message : string)
  | Returned (value : A).
Arguments Thrown {A} message.
Arguments Returned {A} value.

(** The module state of the service: the cache, and the number of requests
    sent to a provider so far. *)
Record Service : Type := mkService {
  responseCache : Cache;
  requests : nat
}.

Section Generator.

(** The compact state dump of the prompt, a pure formatting of the game
    state whose text the cache only compares. *)
Variable stateDump : GameState.t → string.

(** [process.env.API_KEY] *)
Variable env_API_KEY : option string.

(** The round trip to the provider for the request with the given serial
    number, followed by [cleanAndParseJson] and the normalisation of the
    flags by [parseWorldUpdates]: the error thrown by any of them, or the
    parsed [data]. Two requests with the same arguments may be answered
    differently. *)
Variable respond :
  nat → list AdventureNode.t → string → GameState.t →
  option GameSettings.t → Outcome AdventureNode.t.

Definition cacheKey (history : list AdventureNode.t) (choice : string)
    (currentState : GameState.t) (settings : option GameSettings.t)
    : CacheKey.t :=
  let lastNode := last history in
  let modelName :=
    match settings ≫= GameSettings.provider with
    | Some openai => default EmptyString (GameSettings.model <$> settings)
    | _ => getModelName settings
    end in
  {| CacheKey.provider := default gemini (settings ≫= GameSettings.provider);
     CacheKey.model := modelName;
     CacheKey.state := stateDump currentState;
     CacheKey.last :=
       optstr_or
         ((λ n, String.substring 0 100 (AdventureNode.storySegment n))
            <$> lastNode) "start";
     CacheKey.summary :=
       optstr_or (lastNode ≫= AdventureNode.summary) EmptyString;
     CacheKey.choice := toLowerCase (trim choice) |}.

(** [{ ...data, worldUpdates: parseWorldUpdates(data.worldUpdates),
       events: data.events || [] }] *)
Definition resultNode (data : AdventureNode.t) : AdventureNode.t :=
  {| AdventureNode.storySegment := AdventureNode.storySegment data;
     AdventureNode.choices := AdventureNode.choices data;
     AdventureNode.inventory := AdventureNode.inventory data;
     AdventureNode.currentQuest := AdventureNode.currentQuest data;
     AdventureNode.locationName := AdventureNode.locationName data;
     AdventureNode.summary := AdventureNode.summary data;
     AdventureNode.statsUpdate := AdventureNode.statsUpdate data;
     AdventureNode.worldUpdates :=
       Some (default ∅ (AdventureNode.worldUpdates data));
     AdventureNode.isCombat := AdventureNode.isCombat data;
     AdventureNode.enemyName := AdventureNode.enemyName data;
     AdventureNode.enemyHealth := AdventureNode.enemyHealth data;
     AdventureNode.enemyMaxHealth := AdventureNode.enemyMaxHealth data;
     AdventureNode.enemyAbilities := AdventureNode.enemyAbilities data;
     AdventureNode.xpAward := AdventureNode.xpAward data;
     AdventureNode.newCodexEntries := AdventureNode.newCodexEntries data;
     AdventureNode.relationshipUpdates :=
       AdventureNode.relationshipUpdates data;
     AdventureNode.events := Some (default [] (AdventureNode.events data)) |}.

(** What the body of the [try] does after a cache miss, before the
    [catch] rewrites the message: the checks that throw before any request
    is sent, then the request. The template of the prompt reads
    [lastNode.storySegment] without a guard, which throws on an empty
    history. *)
Definition request (history : list AdventureNode.t) (choice : string)
    (currentState : GameState.t) (settings : option GameSettings.t)
    (requests : nat) : Outcome AdventureNode.t * nat :=
  match last history with
  | None =>
      (Thrown "Cannot read properties of undefined (reading 'storySegment')",
       requests)
  | Some _ =>
      let missing :=
        match settings ≫= GameSettings.provider with
        | Some openai =>
            if truthy_str (GameSettings.apiKey <$> settings) then None
            else Some "API Key is missing for Custom/Nvidia provider."
        | _ =>
            if truthy_str (GameSettings.apiKey <$> settings)
               || truthy_str env_API_KEY
            then None
            else Some "API_KEY_MISSING"
        end in
      match missing with
      | Some message => (Thrown message, requests)
      | None =>
          (respond requests history choice currentState settings,
           S requests)
      end
  end.

Definition generateAdventureNode (history : list AdventureNode.t)
    (choice : string) (currentState : GameState.t)
    (settings : option GameSettings.t) (svc : Service)
    : Outcome AdventureNode.t * Service :=
  let key := cacheKey history choice currentState settings in
  match cache_get key (responseCache svc) with
  | Some node => (Returned node, svc)
  | None =>
      match request history choice currentState settings (requests svc) with
      | (Returned data, n) =>
          let node := resultNode data in
          (Returned node,
           {| responseCache := cache_save key node (responseCache svc);
              requests := n |})
      | (Thrown message, n) =>
          (Thrown
             (if bool_decide (message = "API_KEY_MISSING")
              then "API Key is missing. Please check your settings."
              else message),
           {| responseCache := responseCache svc; requests := n |})
      end
  end.

End Generator.

(** ** The orchestrator ([handleChoice] as a whole) *)

(** The React state that [handleChoice] reads and writes. *)
Module App.
Record t : Type := mk {
  gameState : option GameState.t;
  history : list AdventureNode.t;
  loading : bool;
  error : option string;
  activeEvent : option WorldEvent.t;
  showSettings : bool;
  gameSettings : GameSettings.t
}.
End App.

Section Orchestrator.

Variable stateDump : GameState.t → string.
Variable env_API_KEY : option string.
Variable respond :
  nat → list AdventureNode.t → string → GameState.t →
  option GameSettings.t → Outcome AdventureNode.t.

(** The [catch] block: [err.message || "AI Error"], then the two ways of
    reporting it. *)
Definition reportError (app : App.t) (message : string) : App.t :=
  let msg := optstr_or (Some message) "AI Error" in
  if includes msg "API Key" || includes msg "Provider" then
    {| App.gameState := App.gameState app;
       App.history := App.history app;
       App.loading := false;
       App.error := Some msg;
       App.activeEvent := None;
       App.showSettings := true;
       App.gameSettings := App.gameSettings app |}
  else
    {| App.gameState := App.gameState app;
       App.history := App.history app;
       App.loading := false;
       App.error := Some ("The threads of fate are tangled. (" +:+ msg +:+ ")");
       App.activeEvent := None;
       App.showSettings := App.showSettings app;
       App.gameSettings := App.gameSettings app |}.

(** The [try] block after the payload has arrived. *)
Definition commitTurn (app : App.t) (gameState : GameState.t)
    (newNode : AdventureNode.t) : App.t :=
  {| App.gameState := Some (resolveTurn gameState newNode);
     App.history := App.history app ++ [newNode];
     App.loading := false;
     App.error := None;
     App.activeEvent := stepG newNode;
     App.showSettings := App.showSettings app;
     App.gameSettings := App.gameSettings app |}.

Definition handleChoice (choice : string) (app : App.t) (svc : Service)
    : App.t * Service :=
  match App.gameState app with
  | None => (app, svc)
  | Some gameState =>
      match generateAdventureNode stateDump env_API_KEY respond
              (App.history app) choice gameState
              (Some (App.gameSettings app)) svc with
      | (Returned newNode, svc') => (commitTurn app gameState newNode, svc')
      | (Thrown message, svc') => (reportError app message, svc')
      end
  end.

End Orchestrator.

(** ** Reachable game states

    The states a session can be in: the state built when a game starts,
    and every state obtained from a reachable one by resolving a turn on
    any payload, by unlocking a skill or by opening the codex. *)
Inductive reachable : GameState.t → Prop :=
  | reachable_start genre persona initialNode :
      reachable (handleStartGame genre persona initialNode)
  | reachable_turn gameState newNode :
      reachable gameState →
      reachable (resolveTurn gameState newNode)
  | reachable_unlock gameState skillId :
      reachable gameState →
      reachable (handleUnlockSkill gameState skillId)
  | reachable_codex gameState :
      reachable gameState →
      reachable (handleOpenCodex gameState).

(** ** The skill tree modal ([SkillTreeModal.tsx], [getStatus]) *)

Inductive SkillStatus : Type := unlocked | available | locked.

(** [gameState.stats[skill.stat]] *)
Definition statValue (stat : StatName) (s : PlayerStats.t) : Z :=
  match stat with
  | Strength => PlayerStats.strength s
  | Agility => PlayerStats.agility s
  | Intelligence => PlayerStats.intelligence s
  | Charisma => PlayerStats.charisma s
  end.

(** The modal shows the button that calls [handleUnlockSkill] for the
    skills whose status is [available], and for no other. *)
Definition getStatus (gameState : GameState.t) (skill : Skill.t)
    : SkillStatus :=
  let isUnlocked :=
    bool_decide (Skill.id skill ∈ GameState.unlockedSkills gameState) in
  let canAfford :=
    bool_decide (Skill.cost skill ≤ GameState.skillPoints gameState) in
  let meetsReq :=
    bool_decide (Skill.minVal skill
                 ≤ statValue (Skill.stat skill) (GameState.stats gameState)) in
  if isUnlocked then unlocked
  else if canAfford && meetsReq then available
  else locked.

(** ** The journal badge ([GameInterface.tsx])

    [gameState.codex?.filter(c => c.isNew).length || 0] *)
Definition newCodexCount (gameState : GameState.t) : nat :=
  length (filter (λ c, truthy_bool (CodexEntry.isNew c) = true)
            (GameState.codex gameState)).

(** ** Saving and loading ([handleSaveGame], [handleLoadGame],
    [handleReset], [handleShowMenu], [handleContinue]) *)

Module StartParams.
Record t : Type := mk {
  genre : string;
  prompt : option string;
  persona : option PlayerPersona.t
}.
End StartParams.

(** The React state of the component that these handlers touch, around the
    part that [handleChoice] uses. *)
Module Shell.
Record t : Type := mk {
  app : App.t;
  isPlaying : bool;
  savedGame : option (GameState.t * list AdventureNode.t);
  startParams : option StartParams.t;
  notification : option string
}.
End Shell.

Definition withError (app : App.t) (error : option string) : App.t :=
  {| App.gameState := App.gameState app;
     App.history := App.history app;
     App.loading := App.loading app;
     App.error := error;
     App.activeEvent := App.activeEvent app;
     App.showSettings := App.showSettings app;
     App.gameSettings := App.gameSettings app |}.

Definition withGame (app : App.t) (gameState : option GameState.t)
    (history : list AdventureNode.t) : App.t :=
  {| App.gameState := gameState;
     App.history := history;
     App.loading := App.loading app;
     App.error := App.error app;
     App.activeEvent := App.activeEvent app;
     App.showSettings := App.showSettings app;
     App.gameSettings := App.gameSettings app |}.

(** [storageOk] tells whether [localStorage.setItem] returns; when it
    throws, the rest of the [try] block is skipped. *)
Definition handleSaveGame (storageOk : bool) (sh : Shell.t) : Shell.t :=
  match App.gameState (Shell.app sh) with
  | None => sh
  | Some gameState =>
      if storageOk then
        {| Shell.app := Shell.app sh;
           Shell.isPlaying := Shell.isPlaying sh;
           Shell.savedGame := Some (gameState, App.history (Shell.app sh));
           Shell.startParams := Shell.startParams sh;
           Shell.notification := Some "Progress Saved" |}
      else
        {| Shell.app :=
             withError (Shell.app sh)
               (Some "Could not save game to local storage.");
           Shell.isPlaying := Shell.isPlaying sh;
           Shell.savedGame := Shell.savedGame sh;
           Shell.startParams := Shell.startParams sh;
           Shell.notification := Shell.notification sh |}
  end.

(** The back-filled copy of the saved state. On a value of the declared
    type the defaults for arrays and for the persona never apply, and the
    numeric ones only replace a level of 0. *)
Definition loadedState (saved : GameState.t) : GameState.t :=
  {| GameState.inventory := GameState.inventory saved;
     GameState.quest := GameState.quest saved;
     GameState.location := GameState.location saved;
     GameState.genre := GameState.genre saved;
     GameState.health := GameState.health saved;
     GameState.maxHealth := GameState.maxHealth saved;
     GameState.turnCount := GameState.turnCount saved;
     GameState.stats := GameState.stats saved;
     GameState.worldState := GameState.worldState saved;
     GameState.inCombat := GameState.inCombat saved;
     GameState.enemyName := GameState.enemyName saved;
     GameState.enemyHealth := GameState.enemyHealth saved;
     GameState.enemyMaxHealth := GameState.enemyMaxHealth saved;
     GameState.enemyAbilities := GameState.enemyAbilities saved;
     GameState.xp := num_or (GameState.xp saved) 0;
     GameState.level := num_or (GameState.level saved) 1;
     GameState.skillPoints := num_or (GameState.skillPoints saved) 0;
     GameState.unlockedSkills := GameState.unlockedSkills saved;
     GameState.codex := GameState.codex saved;
     GameState.relationships := GameState.relationships saved;
     GameState.persona := GameState.persona saved |}.

Definition handleLoadGame (sh : Shell.t) : Shell.t :=
  match Shell.savedGame sh with
  | None => sh
  | Some (saved, history) =>
      {| Shell.app := withGame (Shell.app sh) (Some (loadedState saved)) history;
         Shell.isPlaying := true;
         Shell.savedGame := Shell.savedGame sh;
         Shell.startParams :=
           Some (StartParams.mk (GameState.genre saved) None None);
         Shell.notification := Shell.notification sh |}
  end.

Definition handleReset (sh : Shell.t) : Shell.t :=
  {| Shell.app := withError (withGame (Shell.app sh) None []) None;
     Shell.isPlaying := false;
     Shell.savedGame := Shell.savedGame sh;
     Shell.startParams := Shell.startParams sh;
     Shell.notification := Shell.notification sh |}.

Definition setIsPlaying (playing : bool) (sh : Shell.t) : Shell.t :=
  {| Shell.app := Shell.app sh;
     Shell.isPlaying := playing;
     Shell.savedGame := Shell.savedGame sh;
     Shell.startParams := Shell.startParams sh;
     Shell.notification := Shell.notification sh |}.

Definition handleShowMenu : Shell.t → Shell.t := setIsPlaying false.

Definition handleContinue : Shell.t → Shell.t := setIsPlaying true.

(** ** The endpoint of the OpenAI-compatible provider ([generateOpenAI]) *)

Fixpoint dropSlashes (s : string) : string :=
  match s with
  | String a s' => if bool_decide (a = "/"%char) then dropSlashes s' else s
  | EmptyString => EmptyString
  end.

(** [s.replace(/\/+$/, '')] *)
Definition stripTrailingSlashes (s : string) : string :=
  String.rev (dropSlashes (String.rev s)).

(** [s.endsWith(suffix)] *)
Definition endsWith (s suffix : string) : bool :=
  String.prefix (String.rev suffix) (String.rev s).

Definition fetchUrl (settings : GameSettings.t) : string :=
  let baseUrl :=
    optstr_or (GameSettings.baseUrl settings)
      "https://integrate.api.nvidia.com/v1" in
  let baseUrl := stripTrailingSlashes (trim baseUrl) in
  if endsWith baseUrl "/chat/completions" then baseUrl
  else baseUrl +:+ "/chat/completions".

(** * Sample data and notions used by the statements *)

(** An opening payload, the game started from it, and variants of the
    payload. *)
Definition sampleNode : AdventureNode.t :=
  {| AdventureNode.storySegment := "You wake at the edge of a pine forest.";
     AdventureNode.choices := ["Look around"; "Follow the road"; "Rest"];
     AdventureNode.inventory := ["Torch"];
     AdventureNode.currentQuest := "Find the village";
     AdventureNode.locationName := "Forest edge";
     AdventureNode.summary := Some "The hero wakes up.";
     AdventureNode.statsUpdate := None;
     AdventureNode.worldUpdates := None;
     AdventureNode.isCombat := Some false;
     AdventureNode.enemyName := None;
     AdventureNode.enemyHealth := None;
     AdventureNode.enemyMaxHealth := None;
     AdventureNode.enemyAbilities := None;
     AdventureNode.xpAward := Some 0;
     AdventureNode.newCodexEntries := None;
     AdventureNode.relationshipUpdates := None;
     AdventureNode.events := None |}.

Definition withAward (n : AdventureNode.t) (award : Z) : AdventureNode.t :=
  {| AdventureNode.storySegment := AdventureNode.storySegment n;
     AdventureNode.choices := AdventureNode.choices n;
     AdventureNode.inventory := AdventureNode.inventory n;
     AdventureNode.currentQuest := AdventureNode.currentQuest n;
     AdventureNode.locationName := AdventureNode.locationName n;
     AdventureNode.summary := AdventureNode.summary n;
     AdventureNode.statsUpdate := AdventureNode.statsUpdate n;
     AdventureNode.worldUpdates := AdventureNode.worldUpdates n;
     AdventureNode.isCombat := AdventureNode.isCombat n;
     AdventureNode.enemyName := AdventureNode.enemyName n;
     AdventureNode.enemyHealth := AdventureNode.enemyHealth n;
     AdventureNode.enemyMaxHealth := AdventureNode.enemyMaxHealth n;
     AdventureNode.enemyAbilities := AdventureNode.enemyAbilities n;
     AdventureNode.xpAward := Some award;
     AdventureNode.newCodexEntries := AdventureNode.newCodexEntries n;
     AdventureNode.relationshipUpdates := AdventureNode.relationshipUpdates n;
     AdventureNode.events := AdventureNode.events n |}.

Definition sampleState : GameState.t :=
  handleStartGame "High Fantasy" None sampleNode.

(** The experience a payload awards: [newNode.xpAward || 0]. *)
Definition awarded (newNode : AdventureNode.t) : Z :=
  optnum_or (AdventureNode.xpAward newNode) 0.

(** [clamp(x, lo, hi)] as the specification writes it. *)
Definition clamp (x lo hi : Z) : Z := Z.max lo (Z.min hi x).

(** An NPC with an ordinary status, and an instruction for her whose
    [newStatus] is the empty string. *)
Definition mira : NPC.t := NPC.mk "npc_mira" "Mira" "Guide" 50 "Friend".

Definition blankStatusUpdate : RelationshipUpdate.t :=
  RelationshipUpdate.mk "npc_mira" "Mira" None 0 (Some EmptyString).

(** An NPC with a sticky status, and an instruction lowering his affinity
    by 20 without a [newStatus]. *)
Definition rival : NPC.t := NPC.mk "npc_kael" "Kael" "School rival" 60 "Rival".

Definition rivalUpdate : RelationshipUpdate.t :=
  RelationshipUpdate.mk "npc_kael" "Kael" None (-20) None.

(** A payload that declares combat, with the given enemy fields; the
    health is a number or left out. *)
Definition combatNode (name : option string) (hp maxHp : option Z)
    (abilities : option (list string)) : AdventureNode.t :=
  {| AdventureNode.storySegment := "Steel rings in the clearing.";
     AdventureNode.choices := ["Attack"; "Defend"; "Flee"];
     AdventureNode.inventory := ["Torch"];
     AdventureNode.currentQuest := "Find the village";
     AdventureNode.locationName := "Forest edge";
     AdventureNode.summary := Some "A fight breaks out.";
     AdventureNode.statsUpdate := None;
     AdventureNode.worldUpdates := None;
     AdventureNode.isCombat := Some true;
     AdventureNode.enemyName := name;
     AdventureNode.enemyHealth := Some <$> hp;
     AdventureNode.enemyMaxHealth := maxHp;
     AdventureNode.enemyAbilities := abilities;
     AdventureNode.xpAward := Some 0;
     AdventureNode.newCodexEntries := None;
     AdventureNode.relationshipUpdates := None;
     AdventureNode.events := None |}.

(** The state of a fresh game after a turn that engages a troll with 60
    of 80 points of health. *)
Definition trollFight : GameState.t :=
  resolveTurn sampleState
    (combatNode (Some "Troll") (Some 60) (Some 80) None).

(** The state of a fresh game after a turn that engages a wolf. *)
Definition wolfFight : GameState.t :=
  resolveTurn sampleState
    (combatNode (Some "Wolf") (Some 40) None (Some ["Bite"])).

Definition withProposals (n : AdventureNode.t)
    (entries : option (list CodexProposal.t))
    (updates : option (list RelationshipUpdate.t)) : AdventureNode.t :=
  {| AdventureNode.storySegment := AdventureNode.storySegment n;
     AdventureNode.choices := AdventureNode.choices n;
     AdventureNode.inventory := AdventureNode.inventory n;
     AdventureNode.currentQuest := AdventureNode.currentQuest n;
     AdventureNode.locationName := AdventureNode.locationName n;
     AdventureNode.summary := AdventureNode.summary n;
     AdventureNode.statsUpdate := AdventureNode.statsUpdate n;
     AdventureNode.worldUpdates := AdventureNode.worldUpdates n;
     AdventureNode.isCombat := AdventureNode.isCombat n;
     AdventureNode.enemyName := AdventureNode.enemyName n;
     AdventureNode.enemyHealth := AdventureNode.enemyHealth n;
     AdventureNode.enemyMaxHealth := AdventureNode.enemyMaxHealth n;
     AdventureNode.enemyAbilities := AdventureNode.enemyAbilities n;
     AdventureNode.xpAward := AdventureNode.xpAward n;
     AdventureNode.newCodexEntries := entries;
     AdventureNode.relationshipUpdates := updates;
     AdventureNode.events := AdventureNode.events n |}.

(** The bounds of an affinity. *)
Definition inRange (r : NPC.t) : Prop := 0 ≤ NPC.affinity r ≤ 100.

(** An instruction introducing an NPC with an affinity change of 60. *)
Definition warmGreeting : RelationshipUpdate.t :=
  RelationshipUpdate.mk "npc_mira" "Mira" (Some "Guide") 60 None.

(** A proposal that step E admits: no entry of the codex shares its id or
    its title. *)
Definition fresh (codex : list CodexEntry.t) (entry : CodexProposal.t) : Prop :=
  codexExists codex entry = false.

#[global] Instance fresh_dec codex entry : Decision (fresh codex entry).
Proof. unfold fresh. apply _. Defined.

Definition ruinsEntry : CodexProposal.t :=
  CodexProposal.mk "lore_ruins" "The Sunken Ruins" Lore
    "Ruins of a drowned city lie under the lake.".

(** A stand-in for the state dump, and a provider that answers the request
    with serial number [n] by a payload awarding [n] points. *)
Definition dumpLocation (currentState : GameState.t) : string :=
  GameState.location currentState.

Definition narrator (n : nat) (history : list AdventureNode.t)
    (choice : string) (currentState : GameState.t)
    (settings : option GameSettings.t) : Outcome AdventureNode.t :=
  Returned (withAward sampleNode (Z.of_nat n)).

Definition sampleSettings : GameSettings.t :=
  GameSettings.mk "secret" "gemini-2.5-flash" None (Some gemini).

Definition emptyService : Service := mkService [] 0.

Definition ask (history : list AdventureNode.t) (choice : string)
    (svc : Service) : Outcome AdventureNode.t * Service :=
  generateAdventureNode dumpLocation None narrator history choice sampleState
    (Some sampleSettings) svc.

(** The sample payload with another summary and the same story text. *)
Definition retoldNode : AdventureNode.t :=
  {| AdventureNode.storySegment := AdventureNode.storySegment sampleNode;
     AdventureNode.choices := AdventureNode.choices sampleNode;
     AdventureNode.inventory := AdventureNode.inventory sampleNode;
     AdventureNode.currentQuest := AdventureNode.currentQuest sampleNode;
     AdventureNode.locationName := AdventureNode.locationName sampleNode;
     AdventureNode.summary := Some "Dawn breaks over the pines.";
     AdventureNode.statsUpdate := None;
     AdventureNode.worldUpdates := None;
     AdventureNode.isCombat := Some false;
     AdventureNode.enemyName := None;
     AdventureNode.enemyHealth := None;
     AdventureNode.enemyMaxHealth := None;
     AdventureNode.enemyAbilities := None;
     AdventureNode.xpAward := Some 0;
     AdventureNode.newCodexEntries := None;
     AdventureNode.relationshipUpdates := None;
     AdventureNode.events := None |}.

(** Fifty further actions, all different. *)
Definition fiftyActions : list string :=
  (λ i, "inspect item " +:+ pretty i) <$> seq 0 50.

Definition askAll (choices : list string) (svc : Service) : Service :=
  foldl (λ svc choice, (ask [sampleNode] choice svc).2) svc choices.

(** A provider whose response cannot be parsed. *)
Definition garbled (n : nat) (history : list AdventureNode.t)
    (choice : string) (currentState : GameState.t)
    (settings : option GameSettings.t) : Outcome AdventureNode.t :=
  Thrown "AI response error: Failed to parse valid JSON. The model output might be malformed.".

Definition sampleApp : App.t :=
  {| App.gameState := Some sampleState;
     App.history := [sampleNode];
     App.loading := false;
     App.error := None;
     App.activeEvent := None;
     App.showSettings := false;
     App.gameSettings := sampleSettings |}.

(** A payload whose stat block carries the given health, and none of the
    four stats. *)
Definition healthNode (health : Z) : AdventureNode.t :=
  {| AdventureNode.storySegment := AdventureNode.storySegment sampleNode;
     AdventureNode.choices := AdventureNode.choices sampleNode;
     AdventureNode.inventory := AdventureNode.inventory sampleNode;
     AdventureNode.currentQuest := AdventureNode.currentQuest sampleNode;
     AdventureNode.locationName := AdventureNode.locationName sampleNode;
     AdventureNode.summary := AdventureNode.summary sampleNode;
     AdventureNode.statsUpdate :=
       Some (StatsUpdate.mk (Some health) None None None None);
     AdventureNode.worldUpdates := None;
     AdventureNode.isCombat := Some false;
     AdventureNode.enemyName := None;
     AdventureNode.enemyHealth := None;
     AdventureNode.enemyMaxHealth := None;
     AdventureNode.enemyAbilities := None;
     AdventureNode.xpAward := Some 0;
     AdventureNode.newCodexEntries := None;
     AdventureNode.relationshipUpdates := None;
     AdventureNode.events := None |}.

(** A game started with 150 points of health, above the maximum of 100. *)
Definition overhealed : GameState.t :=
  handleStartGame "High Fantasy" None (healthNode 150).

(** The fresh game after a turn that awards 120 points of experience:
    level 2, one skill point, every stat at 5. *)
Definition levelTwo : GameState.t :=
  resolveTurn sampleState (withAward sampleNode 120).

(** The skill of the tree that asks for a strength of 7. *)
Definition titanGrip : Skill.t :=
  Skill.mk "titan_grip" "Titan Grip"
    "Wield heavy weapons with ease and intimidate foes." Strength 7 1.

(** The skill of the tree that asks for a strength of 3. *)
Definition powerStrike : Skill.t :=
  Skill.mk "power_strike" "Power Strike"
    "Deal massive damage when attacking aggressively." Strength 3 1.

(** The encounter fields vary together: outside combat they are all
    null; in combat the name is set and not empty, the maximum health is
    set and not 0, and the abilities are set. The enemy health of an
    encounter is left out: a payload can set it to [null]. *)
Definition encounterConsistent (gameState : GameState.t) : Prop :=
  if GameState.inCombat gameState then
    (∃ n, GameState.enemyName gameState = Some n ∧ n ≠ EmptyString)
    ∧ (∃ m, GameState.enemyMaxHealth gameState = Some m ∧ m ≠ 0)
    ∧ is_Some (GameState.enemyAbilities gameState)
  else
    GameState.enemyName gameState = None
    ∧ GameState.enemyMaxHealth gameState = None
    ∧ GameState.enemyHealth gameState = None
    ∧ GameState.enemyAbilities gameState = None.

(** A payload that declares combat and sends [null] as the enemy health. *)
Definition nullHealthNode : AdventureNode.t :=
  {| AdventureNode.storySegment := "Steel rings in the clearing.";
     AdventureNode.choices := ["Attack"; "Defend"; "Flee"];
     AdventureNode.inventory := ["Torch"];
     AdventureNode.currentQuest := "Find the village";
     AdventureNode.locationName := "Forest edge";
     AdventureNode.summary := Some "A fight goes on.";
     AdventureNode.statsUpdate := None;
     AdventureNode.worldUpdates := None;
     AdventureNode.isCombat := Some true;
     AdventureNode.enemyName := None;
     AdventureNode.enemyHealth := Some None;
     AdventureNode.enemyMaxHealth := None;
     AdventureNode.enemyAbilities := None;
     AdventureNode.xpAward := Some 0;
     AdventureNode.newCodexEntries := None;
     AdventureNode.relationshipUpdates := None;
     AdventureNode.events := None |}.

(** The same new acquaintance, named twice in one payload. *)
Definition twoGreetings : AdventureNode.t :=
  withProposals sampleNode None (Some [warmGreeting; warmGreeting]).

(** A second entry, and a payload proposing two distinct entries. *)
Definition towerEntry : CodexProposal.t :=
  CodexProposal.mk "loc_tower" "The Leaning Tower" Location
    "A tower of pale stone leans over the road.".

Definition twoEntries : AdventureNode.t :=
  withProposals sampleNode (Some [ruinsEntry; towerEntry]) None.

(** Settings without a key, and a session configured with them. *)
Definition keylessSettings : GameSettings.t :=
  GameSettings.mk EmptyString "gemini-2.5-flash" None (Some gemini).

Definition keylessApp : App.t :=
  {| App.gameState := Some sampleState;
     App.history := [sampleNode];
     App.loading := false;
     App.error := None;
     App.activeEvent := None;
     App.showSettings := false;
     App.gameSettings := keylessSettings |}.

(** ** Sessions

    [setGameState(prev => f(prev))], as [handleUnlockSkill] and
    [handleOpenCodex] use it. *)
Definition updateGame (f : GameState.t → GameState.t) (app : App.t) : App.t :=
  withGame app (f <$> App.gameState app) (App.history app).

Section Sessions.

Variable stateDump : GameState.t → string.
Variable env_API_KEY : option string.
Variable respond :
  nat → list AdventureNode.t → string → GameState.t →
  option GameSettings.t → Outcome AdventureNode.t.

(** The sessions in play: the one that [handleStartGame] sets up from the
    opening payload ([setGameState(newState); setHistory([initialNode])]),
    and those obtained from it by choices, skill unlocks and visits of the
    codex. *)
Inductive played : App.t → Prop :=
  | played_start genre persona initialNode app :
      App.gameState app = Some (handleStartGame genre persona initialNode) →
      App.history app = [initialNode] →
      played app
  | played_choice choice app svc :
      played app →
      played (handleChoice stateDump env_API_KEY respond choice app svc).1
  | played_unlock skillId app :
      played app →
      played (updateGame (λ prev, handleUnlockSkill prev skillId) app)
  | played_codex app :
      played app →
      played (updateGame handleOpenCodex app).

End Sessions.

(** The characters of a string, and the list counterparts of [trimStart]
    and [trim], used to reason about the normalisation of an action. *)
Abbreviation chars := list_ascii_of_string.

Fixpoint dropSpaces (l : list ascii) : list ascii :=
  match l with
  | a :: l' => if isSpace a then dropSpaces l' else l
  | [] => []
  end.

Definition trimmed (l : list ascii) : list ascii :=
  reverse (dropSpaces (reverse (dropSpaces l))).

(** A list that does not begin with white space. *)
Definition noLeadingSpace (l : list ascii) : Prop :=
  match l with
  | a :: _ => isSpace a = false
  | [] => True
  end.

(** Settings for the OpenAI-compatible provider with a base URL that ends
    in a slash. *)
Definition customSettings : GameSettings.t :=
  GameSettings.mk "secret" "meta/llama-3.1-70b-instruct"
    (Some " https://example.test/v1/ ") (Some openai).

(** A session in play, with nothing saved yet. *)
Definition sampleShell : Shell.t :=
  {| Shell.app := sampleApp;
     Shell.isPlaying := true;
     Shell.savedGame := None;
     Shell.startParams := None;
     Shell.notification := None |}.

(** A payload that sets one world flag. *)
Definition flagNode : AdventureNode.t :=
  {| AdventureNode.storySegment := AdventureNode.storySegment sampleNode;
     AdventureNode.choices := AdventureNode.choices sampleNode;
     AdventureNode.inventory := AdventureNode.inventory sampleNode;
     AdventureNode.currentQuest := AdventureNode.currentQuest sampleNode;
     AdventureNode.locationName := AdventureNode.locationName sampleNode;
     AdventureNode.summary := AdventureNode.summary sampleNode;
     AdventureNode.statsUpdate := None;
     AdventureNode.worldUpdates := Some {[ "gate_open" := FlagBool true ]};
     AdventureNode.isCombat := Some false;
     AdventureNode.enemyName := None;
     AdventureNode.enemyHealth := None;
     AdventureNode.enemyMaxHealth := None;
     AdventureNode.enemyAbilities := None;
     AdventureNode.xpAward := Some 0;
     AdventureNode.newCodexEntries := None;
     AdventureNode.relationshipUpdates := None;
     AdventureNode.events := None |}.

(** A payload proposing the entry about the ruins once. *)
Definition ruinsOnly : AdventureNode.t :=
  withProposals sampleNode (Some [ruinsEntry]) None.

(** * Properties *)

(** ** Truthiness lemmas *)

Lemma num_or_0 x : num_or x 0 = x.
Proof. unfold num_or. case_bool_decide; congruence. Qed.

Lemma num_or_nonzero x d : x ≠ 0 → num_or x d = x.
Proof. unfold num_or. intros H. case_bool_decide; congruence. Qed.

Lemma optnum_or_Some_0 x : optnum_or (Some x) 0 = x.
Proof. apply num_or_0. Qed.

Lemma optstr_or_truthy o d :
  truthy_str o = true → ∃ s, o = Some s ∧ s ≠ EmptyString ∧ optstr_or o d = s.
Proof.
  destruct o as [s|]; simpl; [|discriminate].
  case_bool_decide; [discriminate|]. eauto.
Qed.

Lemma optstr_or_falsy o d : truthy_str o = false → optstr_or o d = d.
Proof.
  destruct o as [s|]; simpl; [|done].
  case_bool_decide; [done|discriminate].
Qed.

(** ** Progression (step D) *)

Lemma awarded_Some newNode A :
  AdventureNode.xpAward newNode = Some A → awarded newNode = A.
Proof. unfold awarded. intros ->. apply optnum_or_Some_0. Qed.

(** C1. Level-up: in a game state of level [L] (the data model has
    [L >= 1]), experience [X], skill points [S] and maximum health [M], a
    payload awarding [A] with [X + A >= L * 100] is resolved into level
    [L + 1], experience [X + A - L * 100], [S + 1] skill points and
    maximum health [M + 10]. *)
Theorem level_up_on_threshold gameState newNode :
  1 ≤ GameState.level gameState →
  GameState.level gameState * 100
    ≤ GameState.xp gameState + awarded newNode →
  let next := resolveTurn gameState newNode in
  GameState.level next = GameState.level gameState + 1
  ∧ GameState.xp next
    = GameState.xp gameState + awarded newNode
      - GameState.level gameState * 100
  ∧ GameState.skillPoints next = GameState.skillPoints gameState + 1
  ∧ GameState.maxHealth next = GameState.maxHealth gameState + 10.
Proof.
  intros Hlevel Hxp. cbn. unfold stepD. fold (awarded newNode).
  rewrite !num_or_0, (num_or_nonzero (GameState.level gameState)) by lia.
  rewrite bool_decide_true by lia. cbn. done.
Qed.

Lemma level_up_on_threshold_witness :
  let next := resolveTurn sampleState (withAward sampleNode 120) in
  (1 ≤ GameState.level sampleState
   ∧ GameState.level sampleState * 100
     ≤ GameState.xp sampleState + awarded (withAward sampleNode 120))
  ∧ GameState.level next = 2 ∧ GameState.xp next = 20
  ∧ GameState.skillPoints next = 1 ∧ GameState.maxHealth next = 110.
Proof.
  split; [split; vm_compute; discriminate|].
  apply (level_up_on_threshold sampleState (withAward sampleNode 120));
    vm_compute; discriminate.
Defined.

(** ** Health (steps C and D) *)

(** C2. From a state with [0 <= health <= maxHealth], and for the health
    delta [d] that the payload carries ([0] when it carries none), the
    health step computes [clamp(health + d, 0, maxHealth)], which is
    [maxHealth] when [health + d] exceeds it and [0] when it is negative,
    and the resolved state satisfies [0 <= health <= maxHealth] again; on a
    turn that levels up, both are the clamped health and the old maximum
    plus 10. *)
Theorem health_clamped_and_invariant gameState newNode d :
  0 ≤ GameState.health gameState ≤ GameState.maxHealth gameState →
  AdventureNode.statsUpdate newNode ≫= StatsUpdate.health = Some d
  ∨ (AdventureNode.statsUpdate newNode ≫= StatsUpdate.health = None ∧ d = 0) →
  let h := GameState.health gameState + d in
  let next := resolveTurn gameState newNode in
  stepC gameState newNode = clamp h 0 (GameState.maxHealth gameState)
  ∧ (GameState.maxHealth gameState < h →
     stepC gameState newNode = GameState.maxHealth gameState)
  ∧ (h < 0 → stepC gameState newNode = 0)
  ∧ 0 ≤ GameState.health next ≤ GameState.maxHealth next
  ∧ (leveledUp (stepD gameState newNode) = true →
     GameState.health next = clamp h 0 (GameState.maxHealth gameState) + 10
     ∧ GameState.maxHealth next = GameState.maxHealth gameState + 10)
  ∧ (leveledUp (stepD gameState newNode) = false →
     GameState.health next = clamp h 0 (GameState.maxHealth gameState)
     ∧ GameState.maxHealth next = GameState.maxHealth gameState).
Proof.
  intros Hinv Hdelta h next.
  assert (Hd : healthChange newNode = d).
  { unfold healthChange, statsField.
    destruct Hdelta as [-> | [-> ->]]; [apply optnum_or_Some_0 | done]. }
  assert (Hc : stepC gameState newNode
               = clamp h 0 (GameState.maxHealth gameState)).
  { unfold stepC, clamp. rewrite Hd. fold h. repeat case_bool_decide; lia. }
  assert (Hr : 0 ≤ stepC gameState newNode ≤ GameState.maxHealth gameState).
  { rewrite Hc. unfold clamp. lia. }
  split; [exact Hc|].
  split; [intros; rewrite Hc; unfold clamp; lia|].
  split; [intros; rewrite Hc; unfold clamp; lia|].
  rewrite <- Hc. subst next. cbn. unfold stepD.
  case_bool_decide; cbn; repeat split; intros; try discriminate; lia.
Qed.

Lemma health_clamped_and_invariant_witness :
  let payload := withAward (healthNode (-30)) 120 in
  let next := resolveTurn sampleState payload in
  (0 ≤ GameState.health sampleState ≤ GameState.maxHealth sampleState
   ∧ AdventureNode.statsUpdate payload ≫= StatsUpdate.health = Some (-30))
  ∧ stepC sampleState payload = 70
  ∧ GameState.health next = 80
  ∧ GameState.maxHealth next = 110
  ∧ 0 ≤ GameState.health next ≤ GameState.maxHealth next.
Proof.
  assert (H : 0 ≤ GameState.health sampleState
              ≤ GameState.maxHealth sampleState)
    by (vm_compute; split; discriminate).
  split; [split; [exact H | reflexivity]|].
  destruct (health_clamped_and_invariant sampleState
              (withAward (healthNode (-30)) 120) (-30) H
              (or_introl eq_refl))
    as (Hstep & _ & _ & Hbounds & Hup & _).
  split; [exact Hstep|].
  destruct (Hup eq_refl) as [Hhealth Hmax].
  split; [exact Hhealth|]. split; [exact Hmax | exact Hbounds].
Defined.

(** ** Experience stays below the threshold only for one crossing *)

Lemma handleUnlockSkill_progress prev skillId :
  GameState.xp (handleUnlockSkill prev skillId) = GameState.xp prev
  ∧ GameState.level (handleUnlockSkill prev skillId) = GameState.level prev.
Proof.
  unfold handleUnlockSkill.
  destruct (list_find _ SKILL_TREE) as [[i skill]|]; [|done].
  destruct (_ && _); done.
Qed.

(** Every reachable state has a level of at least 1. The experience can
    be negative, after a payload with a negative award. *)
Lemma reachable_level gameState :
  reachable gameState → 1 ≤ GameState.level gameState.
Proof.
  induction 1 as [genre persona initialNode
                 | gameState newNode Hr IH
                 | gameState skillId Hr IH
                 | gameState Hr IH].
  - cbn. lia.
  - cbn. unfold stepD.
    rewrite (num_or_nonzero (GameState.level gameState)) by lia.
    case_bool_decide; cbn; lia.
  - destruct (handleUnlockSkill_progress gameState skillId) as [_ ->]. exact IH.
  - exact IH.
Qed.

Lemma sampleState_reachable : reachable sampleState.
Proof. apply reachable_start. Qed.

(** The claim that the experience of every resolved state lies in
    [[0, L' * 100)] fails on both sides. From the state of a fresh game
    (level 1, no experience) an award of 350 leaves 250 points of
    experience at level 2, whose threshold is 200. And the state reached
    from the fresh game by a payload awarding -50 has an experience of -50,
    which a following award of 0 leaves at -50. *)
Lemma xp_can_exceed_threshold :
  let next := resolveTurn sampleState (withAward sampleNode 350) in
  let indebted := resolveTurn sampleState (withAward sampleNode (-50)) in
  let after := resolveTurn indebted (withAward sampleNode 0) in
  (reachable sampleState
   ∧ 0 ≤ awarded (withAward sampleNode 350)
   ∧ GameState.xp next = 250
   ∧ GameState.level next = 2
   ∧ ¬ (0 ≤ GameState.xp next < GameState.level next * 100))
  ∧ (reachable indebted
     ∧ 0 ≤ awarded (withAward sampleNode 0)
     ∧ GameState.xp after = -50
     ∧ GameState.level after = 1
     ∧ ¬ (0 ≤ GameState.xp after < GameState.level after * 100)).
Proof.
  split.
  - split; [exact sampleState_reachable|].
    split; [vm_compute; discriminate|].
    split; [reflexivity|]. split; [reflexivity|].
    vm_compute. intros [_ H]. discriminate H.
  - split; [apply reachable_turn, sampleState_reachable|].
    split; [vm_compute; discriminate|].
    split; [reflexivity|]. split; [reflexivity|].
    vm_compute. intros [H _]. by apply H.
Qed.

(** C3 (amended). From a reachable state of level [L] whose experience [X]
    is not negative, a payload with a non-negative award [A] that crosses
    at most one threshold, [X + A < L * 100 + (L + 1) * 100], is resolved
    into a state whose experience lies in [[0, L' * 100)], [L'] being the
    resulting level; with any non-negative award the resulting experience
    is not negative. No step restricts the payloads of the earlier turns:
    the experience of a reachable state is negative only after a payload
    with a negative award. *)
Theorem xp_below_threshold_single_crossing gameState newNode :
  reachable gameState →
  0 ≤ GameState.xp gameState →
  0 ≤ awarded newNode →
  let next := resolveTurn gameState newNode in
  0 ≤ GameState.xp next
  ∧ (GameState.xp gameState + awarded newNode
       < GameState.level gameState * 100
         + (GameState.level gameState + 1) * 100 →
     GameState.xp next < GameState.level next * 100).
Proof.
  intros Hr Hxp Haward.
  pose proof (reachable_level gameState Hr) as Hlevel.
  cbn. unfold stepD. fold (awarded newNode).
  rewrite !num_or_0, (num_or_nonzero (GameState.level gameState)) by lia.
  case_bool_decide; cbn; lia.
Qed.

Lemma xp_below_threshold_single_crossing_witness :
  let next := resolveTurn sampleState (withAward sampleNode 250) in
  (reachable sampleState
   ∧ 0 ≤ GameState.xp sampleState
   ∧ 0 ≤ awarded (withAward sampleNode 250))
  ∧ 0 ≤ GameState.xp next
  ∧ GameState.xp next < GameState.level next * 100.
Proof.
  assert (Hx : 0 ≤ GameState.xp sampleState) by (vm_compute; discriminate).
  assert (Ha : 0 ≤ awarded (withAward sampleNode 250))
    by (vm_compute; discriminate).
  split; [split; [exact sampleState_reachable | by split]|].
  destruct (xp_below_threshold_single_crossing sampleState
              (withAward sampleNode 250) sampleState_reachable Hx Ha)
    as [H0 H1].
  split; [exact H0|]. apply H1. vm_compute. reflexivity.
Defined.

(** ** Relationship status (step F) *)

Lemma sticky_nonempty s : s ∈ stickyStatuses → s ≠ EmptyString.
Proof.
  unfold stickyStatuses. rewrite !elem_of_cons, elem_of_nil.
  intros H ->. repeat destruct H as [H|H]; discriminate || done.
Qed.

Lemma calculateRelationshipStatus_nonempty a :
  calculateRelationshipStatus a ≠ EmptyString.
Proof. unfold calculateRelationshipStatus. repeat case_bool_decide; discriminate. Qed.

(** An instruction that matches an NPC rewrites it in place. *)
Lemma applyUpdate_existing (rels : list NPC.t) success update index npc :
  list_find (targets update) rels = Some (index, npc) →
  (applyUpdate (rels, success) update).1 !! index
  = Some (updateExisting npc update).
Proof.
  intros Hfind. cbn. rewrite Hfind. cbn.
  apply list_find_Some in Hfind as (Hlookup & _ & _).
  apply list_lookup_insert_eq. by eapply lookup_lt_Some.
Qed.

(** The claim that a supplied [newStatus] is always used verbatim fails for
    the empty string: the instruction below supplies it for an existing
    NPC, and the status written is the one computed from the affinity. *)
Lemma blank_newStatus_not_verbatim :
  RelationshipUpdate.newStatus blankStatusUpdate = Some EmptyString
  ∧ list_find (targets blankStatusUpdate) [mira] = Some (0%nat, mira)
  ∧ NPC.status <$> (applyUpdate ([mira], false) blankStatusUpdate).1
    = ["Friend"]
  ∧ NPC.status <$> (applyUpdate ([mira], false) blankStatusUpdate).1
    ≠ [EmptyString].
Proof. repeat split; try reflexivity. vm_compute. discriminate. Qed.

(** C4 (amended). For an existing NPC and an instruction targeting it, the
    status written follows this precedence: a non-empty [newStatus] is used
    verbatim; otherwise ([newStatus] absent or empty) a current status in
    the sticky set is preserved, except that it becomes Enemy when the
    clamped new affinity is below 10 and the current status is neither
    Nemesis nor Enemy; otherwise the status is computed from the clamped
    new affinity by the thresholds <10 Enemy, <25 Stranger, <45
    Acquaintance, <65 Friend, <85 Confidant, >=85 Close Friend. *)
Theorem status_precedence (rels : list NPC.t) success update index npc :
  list_find (targets update) rels = Some (index, npc) →
  let a' := clampAffinity
              (NPC.affinity npc + RelationshipUpdate.affinityChange update) in
  ∃ npc',
    (applyUpdate (rels, success) update).1 !! index = Some npc'
    ∧ NPC.affinity npc' = a'
    ∧ (∀ s, RelationshipUpdate.newStatus update = Some s →
            s ≠ EmptyString → NPC.status npc' = s)
    ∧ (RelationshipUpdate.newStatus update = None
       ∨ RelationshipUpdate.newStatus update = Some EmptyString →
       (NPC.status npc ∈ stickyStatuses →
        (a' < 10 → NPC.status npc ≠ "Nemesis" → NPC.status npc ≠ "Enemy" →
         NPC.status npc' = "Enemy")
        ∧ (10 ≤ a' ∨ NPC.status npc = "Nemesis" ∨ NPC.status npc = "Enemy" →
           NPC.status npc' = NPC.status npc))
       ∧ (NPC.status npc ∉ stickyStatuses →
          (a' < 10 → NPC.status npc' = "Enemy")
          ∧ (10 ≤ a' < 25 → NPC.status npc' = "Stranger")
          ∧ (25 ≤ a' < 45 → NPC.status npc' = "Acquaintance")
          ∧ (45 ≤ a' < 65 → NPC.status npc' = "Friend")
          ∧ (65 ≤ a' < 85 → NPC.status npc' = "Confidant")
          ∧ (85 ≤ a' → NPC.status npc' = "Close Friend"))).
Proof.
  intros Hfind a'. exists (updateExisting npc update).
  split; [by apply applyUpdate_existing|].
  split; [reflexivity|].
  cbn. fold a'. unfold resolveStatus. split.
  - intros s -> Hs. cbn. rewrite bool_decide_false by done. cbn.
    by rewrite bool_decide_false.
  - intros Habsent.
    assert (Hfalsy : truthy_str (RelationshipUpdate.newStatus update) = false).
    { destruct Habsent as [-> | ->]; reflexivity. }
    rewrite Hfalsy. cbn. split.
    + intros Hsticky. rewrite bool_decide_true by done.
      pose proof (sticky_nonempty _ Hsticky) as Hne. split.
      * intros Hlow Hnem Hen.
        rewrite (bool_decide_true (a' < 10)), !bool_decide_false by done.
        reflexivity.
      * intros Hkeep.
        assert (Hcond : bool_decide (a' < 10)
                        && negb (bool_decide (NPC.status npc = "Nemesis"))
                        && negb (bool_decide (NPC.status npc = "Enemy"))
                        = false).
        { repeat case_bool_decide; cbn; try reflexivity.
          destruct Hkeep as [? | [? | ?]]; [lia | done | done]. }
        rewrite Hcond. cbn. by rewrite bool_decide_false.
    + intros Hfree. rewrite bool_decide_false by done. cbn.
      pose proof (calculateRelationshipStatus_nonempty a') as Hne.
      rewrite bool_decide_false by done.
      unfold calculateRelationshipStatus.
      repeat split; intros; repeat case_bool_decide; reflexivity || lia.
Qed.

Lemma status_precedence_witness :
  list_find (targets rivalUpdate) [mira; rival] = Some (1%nat, rival)
  ∧ ∃ npc',
      (applyUpdate ([mira; rival], false) rivalUpdate).1 !! 1%nat = Some npc'
      ∧ NPC.affinity npc' = 40
      ∧ NPC.status npc' = "Rival".
Proof.
  assert (Hfind : list_find (targets rivalUpdate) [mira; rival]
                  = Some (1%nat, rival)) by reflexivity.
  split; [exact Hfind|].
  destruct (status_precedence [mira; rival] false rivalUpdate 1 rival Hfind)
    as (npc' & Hlookup & Haff & _ & Habsent).
  exists npc'. split; [exact Hlookup|]. split; [exact Haff|].
  destruct (Habsent (or_introl eq_refl)) as [Hsticky _].
  assert (Hin : NPC.status rival ∈ stickyStatuses)
    by (apply list_elem_of_In; vm_compute; tauto).
  destruct (Hsticky Hin) as [_ Hkeep].
  apply Hkeep. left. vm_compute. discriminate.
Defined.

(** ** Combat (step B) *)

(** The test of the first branch of step B, in logical form: there is no
    encounter, or the payload carries a non-empty name other than the
    current one. *)
Lemma startsEngagement_true gameState newNode :
  startsEngagement gameState newNode = true ↔
  GameState.inCombat gameState = false
  ∨ ∃ n, AdventureNode.enemyName newNode = Some n
         ∧ n ≠ EmptyString
         ∧ GameState.enemyName gameState ≠ Some n.
Proof.
  unfold startsEngagement.
  destruct (GameState.inCombat gameState); cbn; [|by intuition].
  destruct (AdventureNode.enemyName newNode) as [n|]; cbn.
  - rewrite andb_true_iff, !negb_true_iff, !bool_decide_eq_false. split.
    + intros [Hne Hdiff]. right. exists n. by repeat split.
    + intros [? | (n' & [= <-] & ? & ?)]; [done|]. by split.
  - split; [done|]. intros [? | (n' & ? & _)]; done.
Qed.

(** The claim that every payload naming a differing enemy starts a new
    engagement fails for the empty name: during the fight with the wolf a
    payload that declares combat with an empty enemy name, and restates
    neither health nor abilities, leaves the encounter as it was, where a
    new engagement would have set the health to the maximum and the
    abilities to the empty list. *)
Lemma blank_enemy_name_keeps_encounter :
  let payload := combatNode (Some EmptyString) None None None in
  let next := resolveTurn wolfFight payload in
  GameState.inCombat wolfFight = true
  ∧ GameState.enemyName wolfFight = Some "Wolf"
  ∧ AdventureNode.isCombat payload = Some true
  ∧ AdventureNode.enemyName payload ≠ GameState.enemyName wolfFight
  ∧ GameState.enemyName next = Some "Wolf"
  ∧ GameState.enemyHealth next = Some 40
  ∧ GameState.enemyMaxHealth next = Some 100
  ∧ GameState.enemyAbilities next = Some ["Bite"]
  ∧ GameState.enemyHealth next ≠ GameState.enemyMaxHealth next
  ∧ GameState.enemyAbilities next ≠ Some [].
Proof. repeat split; try reflexivity; vm_compute; discriminate. Qed.

(** C5 (amended). The combat step has three cases. A payload declaring
    combat when there is no encounter, or carrying a non-empty enemy name
    other than the current one, starts a new engagement: the enemy health
    is the payload's when the payload has the field (a number, or [null],
    which is stored as it is), or the maximum when the field is left out,
    and the abilities are the payload's, or empty when absent. A payload
    declaring combat during an encounter with the same enemy name, or with
    no name (absent or empty), keeps the encounter, overwrites the enemy
    health only if the payload has the field (with [null], if that is what
    it holds), and the abilities only if the payload supplies a non-empty
    list. A payload declaring no combat clears every encounter field. *)
Theorem combat_state_machine gameState newNode :
  let next := resolveTurn gameState newNode in
  (AdventureNode.isCombat newNode = Some true →
   (GameState.inCombat gameState = false
    ∨ ∃ n, AdventureNode.enemyName newNode = Some n
           ∧ n ≠ EmptyString
           ∧ GameState.enemyName gameState ≠ Some n) →
   GameState.inCombat next = true
   ∧ (∀ n, AdventureNode.enemyName newNode = Some n → n ≠ EmptyString →
           GameState.enemyName next = Some n)
   ∧ (∃ m, GameState.enemyMaxHealth next = Some m
           ∧ (∀ h, AdventureNode.enemyHealth newNode = Some h →
                   GameState.enemyHealth next = h)
           ∧ (AdventureNode.enemyHealth newNode = None →
              GameState.enemyHealth next = Some m))
   ∧ (∀ l, AdventureNode.enemyAbilities newNode = Some l →
           GameState.enemyAbilities next = Some l)
   ∧ (AdventureNode.enemyAbilities newNode = None →
      GameState.enemyAbilities next = Some []))
  ∧ (AdventureNode.isCombat newNode = Some true →
     GameState.inCombat gameState = true →
     (AdventureNode.enemyName newNode = None
      ∨ AdventureNode.enemyName newNode = Some EmptyString
      ∨ AdventureNode.enemyName newNode = GameState.enemyName gameState) →
     GameState.inCombat next = true
     ∧ GameState.enemyName next = GameState.enemyName gameState
     ∧ GameState.enemyMaxHealth next = GameState.enemyMaxHealth gameState
     ∧ (∀ h, AdventureNode.enemyHealth newNode = Some h →
             GameState.enemyHealth next = h)
     ∧ (AdventureNode.enemyHealth newNode = None →
        GameState.enemyHealth next = GameState.enemyHealth gameState)
     ∧ (∀ l, AdventureNode.enemyAbilities newNode = Some l → l ≠ [] →
             GameState.enemyAbilities next = Some l)
     ∧ (AdventureNode.enemyAbilities newNode = None
        ∨ AdventureNode.enemyAbilities newNode = Some [] →
        GameState.enemyAbilities next = GameState.enemyAbilities gameState))
  ∧ (AdventureNode.isCombat newNode ≠ Some true →
     GameState.inCombat next = false
     ∧ GameState.enemyName next = None
     ∧ GameState.enemyHealth next = None
     ∧ GameState.enemyMaxHealth next = None
     ∧ GameState.enemyAbilities next = None).
Proof.
  cbn. unfold stepB. split; [|split].
  - intros -> Hnew. apply startsEngagement_true in Hnew. rewrite Hnew. cbn.
    split; [reflexivity|]. split; [|split; [|split]].
    + intros n -> Hn. cbn. by rewrite bool_decide_false.
    + eexists. split; [reflexivity|]. split.
      * by intros h ->.
      * by intros ->.
    + by intros l ->.
    + by intros ->.
  - intros -> Hin Hsame.
    assert (Hkeep : startsEngagement gameState newNode = false).
    { apply not_true_is_false. rewrite startsEngagement_true.
      intros [? | (n & Hn & Hne & Hdiff)]; [congruence|].
      destruct Hsame as [? | [? | ?]]; congruence. }
    rewrite Hkeep. cbn.
    split; [exact Hin|]. split; [reflexivity|]. split; [reflexivity|].
    split; [by intros h ->|]. split; [by intros ->|]. split.
    + intros l -> Hl. by destruct l.
    + by intros [-> | ->].
  - intros Hno.
    assert (Hf : truthy_bool (AdventureNode.isCombat newNode) = false).
    { destruct (AdventureNode.isCombat newNode) as [[]|]; done. }
    rewrite Hf. done.
Qed.

Lemma combat_state_machine_witness :
  let payload := combatNode (Some "Wolf") (Some 40) None (Some ["Bite"]) in
  (AdventureNode.isCombat payload = Some true
   ∧ GameState.inCombat sampleState = false)
  ∧ GameState.inCombat wolfFight = true
  ∧ GameState.enemyAbilities wolfFight = Some ["Bite"].
Proof.
  split; [split; reflexivity|].
  destruct (combat_state_machine sampleState
              (combatNode (Some "Wolf") (Some 40) None (Some ["Bite"])))
    as [Hnew _].
  destruct (Hnew eq_refl (or_introl eq_refl)) as (Hin & _ & _ & Hab & _).
  split; [exact Hin|]. apply Hab. reflexivity.
Defined.

(** The claim fails when "the enemy name differs" is taken to include the
    empty name: during the fight with the troll, whose maximum health is
    80, a payload that declares combat with an empty enemy name and an
    [enemyMaxHealth] of 0 does not start a new engagement, and the maximum
    health stays 80 where the claim has it replaced by 100. *)
Lemma blank_enemy_name_keeps_max_health :
  let payload := combatNode (Some EmptyString) None (Some 0) None in
  let next := resolveTurn trollFight payload in
  GameState.inCombat trollFight = true
  ∧ GameState.enemyName trollFight = Some "Troll"
  ∧ GameState.enemyMaxHealth trollFight = Some 80
  ∧ AdventureNode.isCombat payload = Some true
  ∧ AdventureNode.enemyName payload ≠ GameState.enemyName trollFight
  ∧ AdventureNode.enemyMaxHealth payload = Some 0
  ∧ GameState.enemyName next = Some "Troll"
  ∧ GameState.enemyMaxHealth next = Some 80
  ∧ GameState.enemyMaxHealth next ≠ Some 100.
Proof. repeat split; try reflexivity; vm_compute; discriminate. Qed.

(** C10 (amended). On a turn that starts a new engagement (the payload
    declares combat, and there is no encounter or the payload carries a
    non-empty enemy name other than the current one), a payload
    [enemyHealth] of 0 is kept as 0, since its presence is tested against
    [undefined] (for the same reason a [null] is kept as [null]); a payload
    [enemyMaxHealth] of 0 is falsy and replaced by 100, the value also
    taken when it is absent; and a missing or empty enemy name gives
    "Unknown Enemy". *)
Theorem new_engagement_defaults gameState newNode :
  AdventureNode.isCombat newNode = Some true →
  (GameState.inCombat gameState = false
   ∨ ∃ n, AdventureNode.enemyName newNode = Some n
          ∧ n ≠ EmptyString
          ∧ GameState.enemyName gameState ≠ Some n) →
  let next := resolveTurn gameState newNode in
  (AdventureNode.enemyHealth newNode = Some (Some 0) →
   GameState.enemyHealth next = Some 0)
  ∧ (AdventureNode.enemyHealth newNode = Some None →
     GameState.enemyHealth next = None)
  ∧ (AdventureNode.enemyMaxHealth newNode = Some 0 →
     GameState.enemyMaxHealth next = Some 100)
  ∧ (AdventureNode.enemyMaxHealth newNode = None →
     GameState.enemyMaxHealth next = Some 100)
  ∧ (AdventureNode.enemyName newNode = None
     ∨ AdventureNode.enemyName newNode = Some EmptyString →
     GameState.enemyName next = Some "Unknown Enemy").
Proof.
  intros Hcombat Hnew. apply startsEngagement_true in Hnew.
  cbn. unfold stepB. rewrite Hcombat, Hnew. cbn.
  repeat split; try by intros ->. by intros [-> | ->].
Qed.

Lemma new_engagement_defaults_witness :
  let payload := combatNode None (Some 0) (Some 0) None in
  let next := resolveTurn sampleState payload in
  (AdventureNode.isCombat payload = Some true
   ∧ GameState.inCombat sampleState = false)
  ∧ GameState.enemyHealth next = Some 0
  ∧ GameState.enemyMaxHealth next = Some 100
  ∧ GameState.enemyName next = Some "Unknown Enemy".
Proof.
  split; [split; reflexivity|].
  destruct (new_engagement_defaults sampleState
              (combatNode None (Some 0) (Some 0) None) eq_refl
              (or_introl eq_refl))
    as (Hh & _ & Hm & _ & Hn).
  split; [by apply Hh|]. split; [by apply Hm|]. apply Hn. by left.
Defined.

(** ** Affinity bounds *)

Lemma clampAffinity_range a : 0 ≤ clampAffinity a ≤ 100.
Proof. unfold clampAffinity. lia. Qed.

(** During a turn, an instruction leaves every affinity in range if the
    roster was in range before: the NPC it updates or adds is clamped. *)
Lemma applyUpdate_inRange acc update :
  Forall inRange acc.1 → Forall inRange (applyUpdate acc update).1.
Proof.
  destruct acc as [rels success]. cbn. intros Hall.
  destruct (list_find (targets update) rels) as [[index npc]|]; cbn.
  - apply Forall_insert; [exact Hall|]. apply clampAffinity_range.
  - apply Forall_app. split; [exact Hall|].
    apply Forall_singleton. apply clampAffinity_range.
Qed.

Lemma stepF_inRange gameState newNode :
  Forall inRange (GameState.relationships gameState) →
  Forall inRange (stepF gameState newNode).1.
Proof.
  unfold stepF. intros Hall.
  assert (Hfold : ∀ updates acc,
            Forall inRange acc.1 →
            Forall inRange (foldl applyUpdate acc updates).1).
  { induction updates as [|update updates IH]; intros acc Hacc;
      cbn [foldl]; [exact Hacc|].
    apply IH. by apply applyUpdate_inRange. }
  by apply Hfold.
Qed.

(** C6, at the failing input. A game started from a payload whose
    relationship instruction carries an affinity change of 60 holds an NPC
    with affinity 110: [handleStartGame] seeds [50 + affinityChange]
    without the clamp that the seeding of a new NPC during a turn applies
    to the same instruction. *)
Theorem start_game_affinity_unclamped :
  let opening := withProposals sampleNode None (Some [warmGreeting]) in
  NPC.affinity
    <$> GameState.relationships (handleStartGame "High Fantasy" None opening)
  = [110]
  ∧ NPC.affinity
      <$> GameState.relationships (resolveTurn sampleState opening)
    = [100].
Proof. split; reflexivity. Qed.

(** ** Codex (step E) *)

Lemma fresh_spec codex entry :
  fresh codex entry ↔
  ∀ c, c ∈ codex →
       CodexEntry.id c ≠ CodexProposal.id entry
       ∧ CodexEntry.title c ≠ CodexProposal.title entry.
Proof.
  unfold fresh, codexExists. rewrite bool_decide_eq_false, Exists_exists.
  split.
  - intros Hnone c Hc. split; intros Heq; apply Hnone; exists c; tauto.
  - intros Hall (c & Hc & Hshare). destruct (Hall c Hc). tauto.
Qed.

Lemma foldl_admitEntry gameState acc entries :
  foldl (admitEntry gameState) acc entries
  = acc ++ (stampEntry (GameState.turnCount gameState + 1)
              <$> filter (fresh (GameState.codex gameState)) entries).
Proof.
  revert acc. induction entries as [|entry entries IH]; intros acc;
    cbn [foldl].
  - by rewrite filter_nil, app_nil_r.
  - rewrite IH. unfold admitEntry. rewrite filter_cons.
    destruct (decide (fresh (GameState.codex gameState) entry)) as [Hf|Hf];
      unfold fresh in Hf.
    + rewrite Hf. cbn. by rewrite <- app_assoc.
    + apply not_false_is_true in Hf. by rewrite Hf.
Qed.

(** What step E guarantees: the codex only grows at its end, and the
    entries added are the proposals that share neither id nor title with an
    entry of the codex before the turn, in the order proposed, stamped with
    the turn count of the resolved state and flagged as new. *)
Lemma codex_admission gameState newNode :
  let next := resolveTurn gameState newNode in
  GameState.codex next
  = GameState.codex gameState
    ++ (stampEntry (GameState.turnCount next)
          <$> filter (fresh (GameState.codex gameState))
                (default [] (AdventureNode.newCodexEntries newNode))).
Proof.
  cbn. unfold stepE, validNewEntries. by rewrite foldl_admitEntry.
Qed.

(** C7, at the failing input. A payload that proposes the same entry twice
    to an empty codex has both copies admitted: each proposal is compared
    with the codex of the previous state only, not with the entries
    admitted earlier in the same turn, so the resulting codex is unique
    neither by id nor by title. *)
Theorem duplicate_proposals_both_admitted :
  let payload := withProposals sampleNode (Some [ruinsEntry; ruinsEntry]) None in
  let next := resolveTurn sampleState payload in
  GameState.codex sampleState = []
  ∧ CodexEntry.id <$> GameState.codex next = ["lore_ruins"; "lore_ruins"]
  ∧ CodexEntry.title <$> GameState.codex next
    = ["The Sunken Ruins"; "The Sunken Ruins"]
  ∧ ¬ NoDup (CodexEntry.id <$> GameState.codex next)
  ∧ ¬ NoDup (CodexEntry.title <$> GameState.codex next).
Proof.
  repeat split; try reflexivity.
  - intros H. apply NoDup_cons in H as [Hnotin _]. apply Hnotin. left.
  - intros H. apply NoDup_cons in H as [Hnotin _]. apply Hnotin. left.
Qed.

(** ** The response cache *)

Lemma cache_get_None k (c : Cache) :
  cache_get k c = None ↔ list_find (λ e, e.1 = k) c = None.
Proof. unfold cache_get. by rewrite fmap_None. Qed.

Lemma cache_delete_miss k k' (c : Cache) :
  cache_get k c = None → cache_get k (cache_delete k' c) = None.
Proof.
  rewrite !cache_get_None, !list_find_None. unfold cache_delete.
  intros Hall. apply Forall_forall. intros e [_ He]%list_elem_of_filter.
  by eapply Forall_forall in Hall.
Qed.

Lemma cache_set_miss k v (c : Cache) :
  cache_get k c = None →
  cache_set k v c = c ++ [(k, v)] ∧ cache_get k (c ++ [(k, v)]) = Some v.
Proof.
  rewrite cache_get_None. intros Hmiss. unfold cache_set, cache_get.
  rewrite Hmiss. split; [reflexivity|].
  rewrite list_find_app_r by done. cbn. by rewrite decide_True.
Qed.

(** The cache after the block "Save to Cache", when the key was missing:
    at the limit the first entry goes, and the new entry is appended. *)
Lemma cache_save_miss k v (c : Cache) :
  cache_get k c = None →
  ∃ c', cache_save k v c = c' ++ [(k, v)]
        ∧ cache_get k (cache_save k v c) = Some v
        ∧ c' = (if bool_decide (CACHE_LIMIT ≤ length c)%nat
                then match cache_firstKey c with
                     | Some firstKey => cache_delete firstKey c
                     | None => c
                     end
                else c).
Proof.
  intros Hmiss. unfold cache_save.
  set (c' := if bool_decide (CACHE_LIMIT ≤ length c)%nat then _ else c).
  assert (Hmiss' : cache_get k c' = None).
  { subst c'. case_bool_decide; [|done].
    destruct (cache_firstKey c); [by apply cache_delete_miss | done]. }
  destruct (cache_set_miss k v c' Hmiss') as [Hset Hget].
  exists c'. by rewrite Hset.
Qed.

(** With distinct keys, deleting the first key removes the first entry and
    nothing else. *)
Lemma cache_delete_first e (c : Cache) :
  NoDup (e :: c).*1 → cache_delete e.1 (e :: c) = c.
Proof.
  rewrite fmap_cons. intros [Hnotin _]%NoDup_cons. unfold cache_delete.
  rewrite filter_cons_False by (intros H; by apply H).
  induction c as [|e' c IH]; [done|].
  rewrite fmap_cons, not_elem_of_cons in Hnotin. destruct Hnotin as [Hne Hnotin].
  rewrite filter_cons_True by (intros H; by apply Hne). f_equal. by apply IH.
Qed.

Lemma cache_save_length k v (c : Cache) :
  (length c ≤ CACHE_LIMIT)%nat → (length (cache_save k v c) ≤ CACHE_LIMIT)%nat.
Proof.
  intros Hlen. unfold cache_save.
  set (c' := if bool_decide (CACHE_LIMIT ≤ length c)%nat then _ else c).
  assert (Hc' : (length c' < CACHE_LIMIT)%nat).
  { subst c'. case_bool_decide as Hfull; [|lia].
    destruct c as [|e c]; [cbn in Hfull; unfold CACHE_LIMIT in Hfull; lia|].
    cbn [cache_firstKey head fmap option_fmap option_map].
    assert (length (cache_delete e.1 (e :: c)) < length (e :: c))%nat; [|lia].
    unfold cache_delete. apply (length_filter_lt _ _ e); [left|].
    intros H. by apply H. }
  unfold cache_set. destruct (list_find _ c') as [[i ?]|].
  - rewrite length_insert. lia.
  - rewrite length_app. cbn. lia.
Qed.

Section GeneratorProperties.

Variable stateDump : GameState.t → string.
Variable env_API_KEY : option string.
Variable respond :
  nat → list AdventureNode.t → string → GameState.t →
  option GameSettings.t → Outcome AdventureNode.t.

Local Abbreviation generate := (generateAdventureNode stateDump env_API_KEY respond).
Local Abbreviation keyOf := (cacheKey stateDump).

(** A call whose key is cached returns the cached node, sends no request
    and leaves the cache as it is. *)
Lemma generate_hit history choice currentState settings svc node :
  cache_get (keyOf history choice currentState settings) (responseCache svc)
  = Some node →
  generate history choice currentState settings svc = (Returned node, svc).
Proof. intros Hhit. unfold generateAdventureNode. by rewrite Hhit. Qed.

(** After a call that returns a node, the node is cached under the key of
    the call. *)
Lemma generate_caches history choice currentState settings svc node svc1 :
  generate history choice currentState settings svc = (Returned node, svc1) →
  cache_get (keyOf history choice currentState settings) (responseCache svc1)
  = Some node.
Proof.
  unfold generateAdventureNode.
  destruct (cache_get _ (responseCache svc)) as [cached|] eqn:Hget.
  - by intros [= <- <-].
  - destruct (request _ _ _ _ _ _) as [[message|data] n]; [done|].
    intros [= <- <-]. cbn.
    by destruct (cache_save_miss _ (resultNode data) _ Hget) as (? & _ & ? & _).
Qed.

(** Sending a request on a miss: what the call returns and stores. *)
Lemma generate_miss history choice currentState settings svc data n :
  cache_get (keyOf history choice currentState settings) (responseCache svc)
  = None →
  request env_API_KEY respond history choice currentState settings
    (requests svc) = (Returned data, n) →
  generate history choice currentState settings svc
  = (Returned (resultNode data),
     {| responseCache :=
          cache_save (keyOf history choice currentState settings)
            (resultNode data) (responseCache svc);
        requests := n |}).
Proof. intros Hmiss Hreq. unfold generateAdventureNode. by rewrite Hmiss, Hreq. Qed.

(** C8 (amended). When a generation call has returned a node, a call that
    follows it with the same fingerprint (provider, model, state summary,
    excerpt and summary of the last turn, normalised action) returns the
    same node, sends no request and leaves the cache unchanged, and so does
    any call made while its fingerprint is still cached. When a node is
    inserted into a cache that holds 50 entries, the earliest-inserted
    entry is evicted and the new one is appended, whichever entries were
    read since; the cache never holds more than 50 entries. *)
Theorem cache_hit_and_eviction history choice currentState settings svc :
  (∀ node svc1 history' choice' currentState' settings',
     generate history choice currentState settings svc
     = (Returned node, svc1) →
     keyOf history' choice' currentState' settings'
     = keyOf history choice currentState settings →
     generate history' choice' currentState' settings' svc1
     = (Returned node, svc1))
  ∧ (∀ node,
       cache_get (keyOf history choice currentState settings)
         (responseCache svc) = Some node →
       generate history choice currentState settings svc
       = (Returned node, svc))
  ∧ (∀ data n,
       NoDup (responseCache svc).*1 →
       length (responseCache svc) = CACHE_LIMIT →
       cache_get (keyOf history choice currentState settings)
         (responseCache svc) = None →
       request env_API_KEY respond history choice currentState settings
         (requests svc) = (Returned data, n) →
       responseCache (generate history choice currentState settings svc).2
       = tail (responseCache svc)
         ++ [(keyOf history choice currentState settings, resultNode data)])
  ∧ ((length (responseCache svc) ≤ CACHE_LIMIT)%nat →
     (length (responseCache
                (generate history choice currentState settings svc).2)
      ≤ CACHE_LIMIT)%nat).
Proof.
  split; [|split; [|split]].
  - intros node svc1 history' choice' currentState' settings' Hfirst Hkey.
    apply generate_hit. rewrite Hkey. by eapply generate_caches.
  - intros node. apply generate_hit.
  - intros data n Hnodup Hfull Hmiss Hreq.
    rewrite (generate_miss _ _ _ _ _ _ _ Hmiss Hreq). cbn.
    destruct (cache_save_miss _ (resultNode data) _ Hmiss)
      as (c' & -> & _ & ->).
    rewrite bool_decide_true by lia.
    destruct (responseCache svc) as [|e c] eqn:Hc; [done|].
    change (cache_firstKey (e :: c)) with (Some e.1).
    cbn [tail]. by rewrite cache_delete_first.
  - intros Hlen. unfold generateAdventureNode.
    destruct (cache_get _ (responseCache svc)); [done|].
    destruct (request _ _ _ _ _ _) as [[message|data] n]; cbn; [done|].
    by apply cache_save_length.
Qed.

End GeneratorProperties.

(** The claim fails for two pairs of calls. In the first pair the calls
    agree on provider, model, state summary, excerpt of the last turn and
    action, but the summary of the last turn differs, which is part of the
    key: the second call sends a second request and returns another node.
    In the second pair the fingerprints are identical, but fifty other
    insertions lie between the calls, the entry has been evicted, and the
    second call sends a request again. *)
Lemma identical_fingerprint_fields_may_miss :
  let key1 := cacheKey dumpLocation [sampleNode] "Look around" sampleState
                (Some sampleSettings) in
  let key2 := cacheKey dumpLocation [retoldNode] "Look around" sampleState
                (Some sampleSettings) in
  let first := ask [sampleNode] "Look around" emptyService in
  let second := ask [retoldNode] "Look around" first.2 in
  let later := askAll fiftyActions first.2 in
  let third := ask [sampleNode] "Look around" later in
  (CacheKey.provider key1 = CacheKey.provider key2
   ∧ CacheKey.model key1 = CacheKey.model key2
   ∧ CacheKey.state key1 = CacheKey.state key2
   ∧ CacheKey.last key1 = CacheKey.last key2
   ∧ CacheKey.choice key1 = CacheKey.choice key2)
  ∧ (first.1 = Returned (resultNode (withAward sampleNode 0))
     ∧ requests first.2 = 1%nat)
  ∧ (second.1 = Returned (resultNode (withAward sampleNode 1))
     ∧ requests second.2 = 2%nat
     ∧ second.1 ≠ first.1)
  ∧ (requests later = 51%nat
     ∧ third.1 = Returned (resultNode (withAward sampleNode 51))
     ∧ requests third.2 = 52%nat
     ∧ third.1 ≠ first.1).
Proof.
  repeat split; try (vm_compute; reflexivity); vm_compute; discriminate.
Qed.

Lemma cache_hit_and_eviction_witness :
  let first := ask [sampleNode] "Look around" emptyService in
  first.1 = Returned (resultNode (withAward sampleNode 0))
  ∧ ask [sampleNode] "  LOOK Around " first.2
    = (Returned (resultNode (withAward sampleNode 0)), first.2)
  ∧ requests first.2 = 1%nat.
Proof.
  split; [reflexivity|]. split; [|reflexivity].
  destruct (cache_hit_and_eviction dumpLocation None narrator [sampleNode]
              "Look around" sampleState (Some sampleSettings) emptyService)
    as [Hpair _].
  apply Hpair; reflexivity.
Defined.

(** ** A failed turn commits nothing *)

Section OrchestratorProperties.

Variable stateDump : GameState.t → string.
Variable env_API_KEY : option string.
Variable respond :
  nat → list AdventureNode.t → string → GameState.t →
  option GameSettings.t → Outcome AdventureNode.t.

Local Abbreviation generate := (generateAdventureNode stateDump env_API_KEY respond).
Local Abbreviation choose := (handleChoice stateDump env_API_KEY respond).

(** A call that throws leaves the cache as it was. *)
Lemma generate_thrown_cache history choice currentState settings svc message :
  (generate history choice currentState settings svc).1 = Thrown message →
  responseCache (generate history choice currentState settings svc).2
  = responseCache svc.
Proof.
  unfold generateAdventureNode.
  destruct (cache_get _ (responseCache svc)); [done|].
  by destruct (request _ _ _ _ _ _) as [[m|data] n].
Qed.

(** C9. If the generation call of a turn fails, in the request or in the
    parsing of the response, the game state and the history after
    [handleChoice] are those before it, and the cache is unchanged;
    conversely the game state or the history differ from before only when
    the call has returned a payload, in which case the state is the turn
    resolved on that payload and the payload is appended to the history. *)
Theorem failed_turn_commits_nothing choice app svc :
  let after := choose choice app svc in
  (∀ gameState message,
     App.gameState app = Some gameState →
     (generate (App.history app) choice gameState
        (Some (App.gameSettings app)) svc).1 = Thrown message →
     App.gameState after.1 = App.gameState app
     ∧ App.history after.1 = App.history app
     ∧ responseCache after.2 = responseCache svc)
  ∧ (App.gameState after.1 ≠ App.gameState app
     ∨ App.history after.1 ≠ App.history app →
     ∃ gameState newNode,
       App.gameState app = Some gameState
       ∧ (generate (App.history app) choice gameState
            (Some (App.gameSettings app)) svc).1 = Returned newNode
       ∧ App.gameState after.1 = Some (resolveTurn gameState newNode)
       ∧ App.history after.1 = App.history app ++ [newNode]).
Proof.
  cbn zeta. unfold handleChoice. split.
  - intros gameState message Hstate Hthrown. rewrite Hstate.
    pose proof (generate_thrown_cache _ _ _ _ _ _ Hthrown) as Hcache.
    destruct (generate _ _ _ _ _) as [[m|newNode] svc']; [|done].
    cbn in Hcache |- *. unfold reportError.
    by destruct (_ || _).
  - intros Hchanged.
    destruct (App.gameState app) as [gameState|] eqn:Hstate.
    + destruct (generate _ _ _ _ _) as [[m|newNode] svc'] eqn:Hgen.
      * exfalso. cbn in Hchanged. unfold reportError in Hchanged.
        destruct (_ || _); cbn in Hchanged;
          destruct Hchanged as [H | H]; congruence.
      * exists gameState, newNode. rewrite Hgen. repeat split; reflexivity.
    + exfalso. cbn in Hchanged. destruct Hchanged as [H | H]; congruence.
Qed.

End OrchestratorProperties.

Lemma failed_turn_commits_nothing_witness :
  let after := handleChoice dumpLocation None garbled "Look around" sampleApp
                 emptyService in
  App.gameState after.1 = Some sampleState
  ∧ App.history after.1 = [sampleNode]
  ∧ responseCache after.2 = []
  ∧ App.error after.1
    = Some "The threads of fate are tangled. (AI response error: Failed to parse valid JSON. The model output might be malformed.)".
Proof.
  destruct (failed_turn_commits_nothing dumpLocation None garbled
              "Look around" sampleApp emptyService) as [Hfail _].
  destruct (Hfail sampleState _ eq_refl eq_refl) as (Hs & Hh & Hc).
  split; [exact Hs|]. split; [exact Hh|]. split; [exact Hc|]. reflexivity.
Defined.

(** * Further properties of the code *)

(** ** Health after a turn *)

(** X1. Whatever the health before the turn, out of range included, the
    state resolved from a state whose maximum health is not negative has
    its health between 0 and its maximum. *)
Theorem turn_restores_health_bounds gameState newNode :
  0 ≤ GameState.maxHealth gameState →
  let next := resolveTurn gameState newNode in
  0 ≤ GameState.health next ≤ GameState.maxHealth next.
Proof.
  intros Hmax. cbn. unfold stepD, stepC.
  repeat case_bool_decide; cbn; lia.
Qed.

Lemma turn_restores_health_bounds_witness :
  let next := resolveTurn overhealed sampleNode in
  (0 ≤ GameState.maxHealth overhealed
   ∧ GameState.maxHealth overhealed < GameState.health overhealed)
  ∧ 0 ≤ GameState.health next ≤ GameState.maxHealth next.
Proof.
  assert (Hmax : 0 ≤ GameState.maxHealth overhealed)
    by (vm_compute; discriminate).
  split; [split; [exact Hmax | reflexivity]|].
  apply (turn_restores_health_bounds overhealed sampleNode Hmax).
Defined.

(** ** Skills *)

Lemma SKILL_TREE_cost skill : skill ∈ SKILL_TREE → Skill.cost skill = 1.
Proof.
  intros Hin. apply list_elem_of_In in Hin. cbn in Hin.
  repeat destruct Hin as [<- | Hin]; reflexivity || done.
Qed.

(** The ids of the tree are distinct: looking an entry up by its id finds
    that entry. *)
Lemma SKILL_TREE_find skill :
  skill ∈ SKILL_TREE →
  ∃ i, list_find (λ s, Skill.id s = Skill.id skill) SKILL_TREE
       = Some (i, skill).
Proof.
  intros Hin. apply list_elem_of_In in Hin. cbn in Hin.
  repeat destruct Hin as [<- | Hin]; try (eexists; reflexivity). done.
Qed.

Lemma SKILL_TREE_found skillId i skill :
  list_find (λ s, Skill.id s = skillId) SKILL_TREE = Some (i, skill) →
  skill ∈ SKILL_TREE ∧ Skill.id skill = skillId ∧ Skill.cost skill = 1.
Proof.
  intros (Hlookup & Hid & _)%list_find_Some.
  assert (Hin : skill ∈ SKILL_TREE) by (by eapply list_elem_of_lookup_2).
  split; [exact Hin|]. split; [exact Hid|]. by apply SKILL_TREE_cost.
Qed.

(** What [handleUnlockSkill] does to the fields it can change. *)
Lemma handleUnlockSkill_cases prev skillId :
  handleUnlockSkill prev skillId = prev
  ∨ (skillId ∈ (Skill.id <$> SKILL_TREE)
     ∧ 1 ≤ GameState.skillPoints prev
     ∧ (skillId ∉ GameState.unlockedSkills prev)
     ∧ handleUnlockSkill prev skillId
       = withSkills prev (GameState.skillPoints prev - 1)
           (GameState.unlockedSkills prev ++ [skillId])).
Proof.
  unfold handleUnlockSkill.
  destruct (list_find _ SKILL_TREE) as [[i skill]|] eqn:Hfind; [|by left].
  apply SKILL_TREE_found in Hfind as (Hin & Hid & Hcost). rewrite Hcost.
  destruct (bool_decide (1 ≤ GameState.skillPoints prev)) eqn:Hpoints;
    [|by left].
  destruct (bool_decide (skillId ∈ GameState.unlockedSkills prev)) eqn:Hdone;
    [by left|].
  right. apply bool_decide_eq_true in Hpoints.
  apply bool_decide_eq_false in Hdone.
  split; [|done]. rewrite <- Hid. by apply list_elem_of_fmap_2.
Qed.

(** X2. In every reachable state the skill points still available and the
    skills unlocked add up to the levels gained, the maximum health is 100
    plus 10 per level gained, and the skill points are not negative. *)
Theorem reachable_progression gameState :
  reachable gameState →
  GameState.skillPoints gameState
  + Z.of_nat (length (GameState.unlockedSkills gameState))
  = GameState.level gameState - 1
  ∧ GameState.maxHealth gameState
    = 100 + 10 * (GameState.level gameState - 1)
  ∧ 0 ≤ GameState.skillPoints gameState.
Proof.
  induction 1 as [genre persona initialNode
                 | gameState newNode Hr (IHsum & IHmax & IHpoints)
                 | gameState skillId Hr (IHsum & IHmax & IHpoints)
                 | gameState Hr IH].
  - cbn. lia.
  - pose proof (reachable_level gameState Hr) as Hlevel.
    cbn. unfold stepD.
    rewrite !num_or_0, (num_or_nonzero (GameState.level gameState)) by lia.
    case_bool_decide; cbn; lia.
  - destruct (handleUnlockSkill_cases gameState skillId)
      as [-> | (_ & Hpoints & _ & ->)]; [done|].
    cbn. rewrite length_app. cbn. lia.
  - exact IH.
Qed.

Lemma levelTwo_reachable : reachable levelTwo.
Proof. apply reachable_turn, reachable_start. Qed.

Lemma reachable_progression_witness :
  reachable levelTwo
  ∧ GameState.skillPoints levelTwo = 1
  ∧ GameState.level levelTwo = 2
  ∧ GameState.maxHealth levelTwo = 100 + 10 * (GameState.level levelTwo - 1).
Proof.
  split; [exact levelTwo_reachable|].
  split; [reflexivity|]. split; [reflexivity|].
  apply (reachable_progression levelTwo levelTwo_reachable).
Defined.

(** X3. In every reachable state the unlocked skills are distinct ids of
    the skill tree, so there are at most twelve of them. *)
Theorem reachable_unlocked_skills gameState :
  reachable gameState →
  NoDup (GameState.unlockedSkills gameState)
  ∧ GameState.unlockedSkills gameState ⊆ (Skill.id <$> SKILL_TREE)
  ∧ (length (GameState.unlockedSkills gameState) ≤ 12)%nat.
Proof.
  intros Hr.
  assert (H : NoDup (GameState.unlockedSkills gameState)
              ∧ GameState.unlockedSkills gameState ⊆ (Skill.id <$> SKILL_TREE)).
  { induction Hr as [genre persona initialNode
                    | gameState newNode Hr IH
                    | gameState skillId Hr [IHnodup IHsub]
                    | gameState Hr IH].
    - cbn. split; [constructor | set_solver].
    - exact IH.
    - destruct (handleUnlockSkill_cases gameState skillId)
        as [-> | (Hin & _ & Hnew & ->)]; [done|].
      cbn. split.
      + apply NoDup_app. split; [exact IHnodup|]. split.
        * intros x Hx ->%list_elem_of_singleton. done.
        * apply NoDup_singleton.
      + intros x [Hx | ->%list_elem_of_singleton]%elem_of_app; [|done].
        by apply IHsub.
    - exact IH. }
  destruct H as [Hnodup Hsub]. split; [exact Hnodup|]. split; [exact Hsub|].
  change 12%nat with (length (Skill.id <$> SKILL_TREE)).
  apply submseteq_length. by apply NoDup_submseteq.
Qed.

Lemma reachable_unlocked_skills_witness :
  reachable (handleUnlockSkill levelTwo "titan_grip")
  ∧ GameState.unlockedSkills (handleUnlockSkill levelTwo "titan_grip")
    = ["titan_grip"]
  ∧ NoDup (GameState.unlockedSkills (handleUnlockSkill levelTwo "titan_grip")).
Proof.
  assert (Hr : reachable (handleUnlockSkill levelTwo "titan_grip"))
    by (apply reachable_unlock, levelTwo_reachable).
  split; [exact Hr|]. split; [reflexivity|].
  apply (reachable_unlocked_skills _ Hr).
Defined.

(** X4. Unlocking is idempotent: asking for the same skill a second time
    changes nothing, whether the first request succeeded or not. *)
Theorem handleUnlockSkill_idempotent prev skillId :
  handleUnlockSkill (handleUnlockSkill prev skillId) skillId
  = handleUnlockSkill prev skillId.
Proof.
  destruct (handleUnlockSkill_cases prev skillId)
    as [Hsame | (_ & _ & _ & Hdone)].
  - by rewrite !Hsame.
  - rewrite Hdone.
    destruct (handleUnlockSkill_cases
                (withSkills prev (GameState.skillPoints prev - 1)
                   (GameState.unlockedSkills prev ++ [skillId])) skillId)
      as [Hsame | (_ & _ & Hnew & _)]; [exact Hsame|].
    exfalso. apply Hnew. cbn. apply elem_of_app. right. by left.
Qed.

(** X5. A skill that the modal shows as available is unlocked by the
    handler: its cost is deducted, its id is appended, the stat requirement
    is met, and the modal then shows it as unlocked. *)
Theorem available_skill_unlocks gameState skill :
  skill ∈ SKILL_TREE →
  getStatus gameState skill = available →
  let next := handleUnlockSkill gameState (Skill.id skill) in
  GameState.skillPoints next
  = GameState.skillPoints gameState - Skill.cost skill
  ∧ GameState.unlockedSkills next
    = GameState.unlockedSkills gameState ++ [Skill.id skill]
  ∧ Skill.minVal skill
    ≤ statValue (Skill.stat skill) (GameState.stats gameState)
  ∧ getStatus next skill = unlocked.
Proof.
  intros Hin Hstatus.
  destruct (SKILL_TREE_find skill Hin) as [i Hfind].
  unfold getStatus in Hstatus.
  destruct (bool_decide (Skill.id skill ∈ _)) eqn:Hdone; [done|].
  destruct (bool_decide (Skill.cost skill ≤ _)) eqn:Hafford; [|done].
  destruct (bool_decide (Skill.minVal skill ≤ _)) eqn:Hreq; [|done].
  cbn zeta. unfold handleUnlockSkill. rewrite Hfind, Hafford, Hdone. cbn.
  split; [reflexivity|]. split; [reflexivity|].
  split; [by apply bool_decide_eq_true in Hreq|].
  unfold getStatus. cbn. rewrite bool_decide_true; [done|].
  apply elem_of_app. right. by left.
Qed.

Lemma available_skill_unlocks_witness :
  (powerStrike ∈ SKILL_TREE ∧ getStatus levelTwo powerStrike = available)
  ∧ GameState.skillPoints (handleUnlockSkill levelTwo "power_strike") = 0
  ∧ getStatus (handleUnlockSkill levelTwo "power_strike") powerStrike
    = unlocked.
Proof.
  assert (Hin : powerStrike ∈ SKILL_TREE) by (apply list_elem_of_In; cbn; tauto).
  split; [split; [exact Hin | reflexivity]|].
  destruct (available_skill_unlocks levelTwo powerStrike Hin eq_refl)
    as (Hpoints & _ & _ & Hstatus).
  split; [exact Hpoints | exact Hstatus].
Defined.

(** X6. The handler itself does not look at the stat requirement: a skill
    of the tree that is affordable and not yet unlocked is unlocked by it,
    also when the modal shows the skill as locked. *)
Theorem handler_ignores_stat_requirement gameState skill :
  skill ∈ SKILL_TREE →
  Skill.cost skill ≤ GameState.skillPoints gameState →
  Skill.id skill ∉ GameState.unlockedSkills gameState →
  GameState.unlockedSkills (handleUnlockSkill gameState (Skill.id skill))
  = GameState.unlockedSkills gameState ++ [Skill.id skill].
Proof.
  intros Hin Hafford Hnew.
  destruct (SKILL_TREE_find skill Hin) as [i Hfind].
  unfold handleUnlockSkill. rewrite Hfind.
  by rewrite bool_decide_true, bool_decide_false.
Qed.

Lemma handler_ignores_stat_requirement_witness :
  (titanGrip ∈ SKILL_TREE
   ∧ Skill.cost titanGrip ≤ GameState.skillPoints levelTwo
   ∧ Skill.id titanGrip ∉ GameState.unlockedSkills levelTwo)
  ∧ getStatus levelTwo titanGrip = locked
  ∧ GameState.unlockedSkills (handleUnlockSkill levelTwo "titan_grip")
    = ["titan_grip"].
Proof.
  assert (Hin : titanGrip ∈ SKILL_TREE) by (apply list_elem_of_In; cbn; tauto).
  assert (Hafford : Skill.cost titanGrip ≤ GameState.skillPoints levelTwo)
    by (vm_compute; discriminate).
  assert (Hnew : Skill.id titanGrip ∉ GameState.unlockedSkills levelTwo)
    by (cbn; apply not_elem_of_nil).
  split; [by repeat split|]. split; [reflexivity|].
  apply (handler_ignores_stat_requirement levelTwo titanGrip Hin Hafford Hnew).
Defined.

(** ** The encounter *)

Lemma handleUnlockSkill_encounter prev skillId :
  encounterConsistent prev →
  encounterConsistent (handleUnlockSkill prev skillId).
Proof.
  destruct (handleUnlockSkill_cases prev skillId) as [-> | (_ & _ & _ & ->)];
    done.
Qed.

(** A resolved turn leaves the encounter fields consistent if they were. *)
Lemma resolveTurn_encounter gameState newNode :
  encounterConsistent gameState →
  encounterConsistent (resolveTurn gameState newNode).
Proof.
  unfold encounterConsistent. cbn. unfold stepB. intros Hprev.
  destruct (truthy_bool (AdventureNode.isCombat newNode)); [|done].
  destruct (startsEngagement gameState newNode) eqn:Hnew; cbn.
  - split; [|split; [|by eauto]].
    + eexists. split; [reflexivity|].
      destruct (AdventureNode.enemyName newNode) as [n|]; cbn; [|done].
      by case_bool_decide.
    + eexists. split; [reflexivity|].
      destruct (AdventureNode.enemyMaxHealth newNode) as [m|]; cbn; [|done].
      unfold num_or. by case_bool_decide.
  - assert (Hin : GameState.inCombat gameState = true).
    { unfold startsEngagement in Hnew.
      by destruct (GameState.inCombat gameState). }
    rewrite Hin in Hprev |- *.
    destruct Hprev as (Hname & Hmax & Habilities).
    split; [exact Hname|]. split; [exact Hmax|].
    by destruct (AdventureNode.enemyAbilities newNode) as [[|a l]|].
Qed.

(** The enemy health of an encounter stays a number over a turn whose
    payload does not send [null] for it. *)
Lemma resolveTurn_enemyHealth gameState newNode :
  (GameState.inCombat gameState = true →
   is_Some (GameState.enemyHealth gameState)) →
  AdventureNode.enemyHealth newNode ≠ Some None →
  GameState.inCombat (resolveTurn gameState newNode) = true →
  is_Some (GameState.enemyHealth (resolveTurn gameState newNode)).
Proof.
  cbn. unfold stepB. intros Hprev Hpayload.
  destruct (truthy_bool (AdventureNode.isCombat newNode)); [|done].
  destruct (startsEngagement gameState newNode) eqn:Hnew; cbn.
  - intros _. by destruct (AdventureNode.enemyHealth newNode) as [[h|]|].
  - intros Hin.
    destruct (AdventureNode.enemyHealth newNode) as [[h|]|]; [done|done|].
    by apply Hprev.
Qed.

(** X7. In every reachable state the encounter fields vary together:
    outside combat the enemy name, health, maximum health and abilities are
    all null; in combat the name is set and not empty, the maximum health
    is set and not 0, and the abilities are set. The enemy health of an
    encounter is a number after every turn whose payload does not send
    [null] for it, if it was one before the turn; a payload that sends
    [null] leaves the encounter with a null health. *)
Theorem reachable_encounter gameState :
  reachable gameState →
  encounterConsistent gameState
  ∧ (∀ newNode,
       (GameState.inCombat gameState = true →
        is_Some (GameState.enemyHealth gameState)) →
       AdventureNode.enemyHealth newNode ≠ Some None →
       GameState.inCombat (resolveTurn gameState newNode) = true →
       is_Some (GameState.enemyHealth (resolveTurn gameState newNode)))
  ∧ (∀ newNode,
       AdventureNode.enemyHealth newNode = Some None →
       GameState.enemyHealth (resolveTurn gameState newNode) = None).
Proof.
  intros Hr. split; [|split].
  - induction Hr as [genre persona initialNode
                    | gameState newNode Hr IH
                    | gameState skillId Hr IH
                    | gameState Hr IH].
    + by repeat split.
    + by apply resolveTurn_encounter.
    + by apply handleUnlockSkill_encounter.
    + exact IH.
  - intros newNode. apply resolveTurn_enemyHealth.
  - intros newNode Hnull. cbn. unfold stepB. rewrite Hnull.
    destruct (truthy_bool _); [|done]. by destruct (startsEngagement _ _).
Qed.

Lemma wolfFight_reachable : reachable wolfFight.
Proof. apply reachable_turn, reachable_start. Qed.

Lemma reachable_encounter_witness :
  reachable wolfFight
  ∧ GameState.inCombat wolfFight = true
  ∧ (∃ n, GameState.enemyName wolfFight = Some n ∧ n ≠ EmptyString)
  ∧ is_Some (GameState.enemyHealth
               (resolveTurn wolfFight (combatNode None None None None)))
  ∧ GameState.enemyHealth (resolveTurn wolfFight nullHealthNode) = None.
Proof.
  split; [exact wolfFight_reachable|]. split; [reflexivity|].
  destruct (reachable_encounter wolfFight wolfFight_reachable)
    as (Hfields & Hkept & Hnull).
  split; [apply Hfields|]. split.
  - apply Hkept; [by eexists | discriminate | reflexivity].
  - by apply Hnull.
Defined.

(** ** The roster of NPCs *)

Lemma updateExisting_identity npc update :
  NPC.id (updateExisting npc update) = NPC.id npc
  ∧ NPC.name (updateExisting npc update) = NPC.name npc.
Proof. done. Qed.

(** One instruction keeps every NPC at its position, with its id and its
    name. *)
Lemma applyUpdate_keeps acc update i npc :
  acc.1 !! i = Some npc →
  ∃ npc', (applyUpdate acc update).1 !! i = Some npc'
          ∧ NPC.id npc' = NPC.id npc ∧ NPC.name npc' = NPC.name npc.
Proof.
  destruct acc as [rels success]. cbn. intros Hi.
  destruct (list_find (targets update) rels) as [[index target]|] eqn:Hfind;
    cbn.
  - apply list_find_Some in Hfind as (Hindex & _ & _).
    destruct (decide (index = i)) as [-> | Hne].
    + exists (updateExisting target update).
      rewrite list_lookup_insert_eq by (by eapply lookup_lt_Some).
      by simplify_eq.
    + exists npc. by rewrite list_lookup_insert_ne.
  - exists npc. by rewrite lookup_app_l by (by eapply lookup_lt_Some).
Qed.

(** X8. A turn never removes, moves or renames an NPC: every NPC of the
    roster is found at the same position afterwards, with the same id and
    the same name. *)
Theorem roster_positions_kept gameState newNode i npc :
  GameState.relationships gameState !! i = Some npc →
  ∃ npc',
    GameState.relationships (resolveTurn gameState newNode) !! i = Some npc'
    ∧ NPC.id npc' = NPC.id npc
    ∧ NPC.name npc' = NPC.name npc.
Proof.
  cbn. unfold stepF.
  assert (Hfold : ∀ updates acc npc0,
            acc.1 !! i = Some npc0 →
            ∃ npc', (foldl applyUpdate acc updates).1 !! i = Some npc'
                    ∧ NPC.id npc' = NPC.id npc0
                    ∧ NPC.name npc' = NPC.name npc0).
  { induction updates as [|update updates IH]; intros acc npc0 Hacc;
      cbn [foldl]; [by exists npc0|].
    destruct (applyUpdate_keeps acc update i npc0 Hacc)
      as (npc1 & Hnpc1 & Hid1 & Hname1).
    destruct (IH _ _ Hnpc1) as (npc' & Hnpc' & Hid & Hname).
    exists npc'. split; [exact Hnpc'|]. split; congruence. }
  intros Hi. by apply (Hfold _ (_, false)).
Qed.

Lemma roster_positions_kept_witness :
  let start := handleStartGame "High Fantasy" None
                 (withProposals sampleNode None (Some [warmGreeting])) in
  let next := resolveTurn start
                (withProposals sampleNode None (Some [blankStatusUpdate])) in
  (∃ npc, GameState.relationships start !! 0%nat = Some npc
          ∧ NPC.id npc = "npc_mira")
  ∧ ∃ npc', GameState.relationships next !! 0%nat = Some npc'
            ∧ NPC.id npc' = "npc_mira".
Proof.
  split; [by eexists|].
  destruct (roster_positions_kept
              (handleStartGame "High Fantasy" None
                 (withProposals sampleNode None (Some [warmGreeting])))
              (withProposals sampleNode None (Some [blankStatusUpdate]))
              0%nat (initialRelationship warmGreeting) eq_refl)
    as (npc' & Hlookup & Hid & _).
  exists npc'. split; [exact Hlookup|]. by rewrite Hid.
Defined.

Lemma applyUpdate_ids acc update :
  NoDup (NPC.id <$> acc.1) → NoDup (NPC.id <$> (applyUpdate acc update).1).
Proof.
  destruct acc as [rels success]. cbn. intros Hnodup.
  destruct (list_find (targets update) rels) as [[index target]|] eqn:Hfind;
    cbn.
  - apply list_find_Some in Hfind as (Hindex & _ & _).
    rewrite list_fmap_insert. cbn.
    rewrite list_insert_id; [done|]. by rewrite list_lookup_fmap, Hindex.
  - rewrite fmap_app. apply NoDup_app. split; [exact Hnodup|]. split.
    + intros x Hx ->%list_elem_of_singleton.
      apply list_elem_of_fmap in Hx as (r & Hr & Hin).
      apply list_find_None in Hfind.
      eapply Forall_forall in Hfind; [|exact Hin].
      apply Hfind. left. done.
    + apply NoDup_singleton.
Qed.

(** X9. If the NPCs of the roster have distinct ids, they still have after
    a turn, also when the payload names the same new NPC more than once:
    the second instruction finds the NPC that the first one added. *)
Theorem roster_ids_stay_distinct gameState newNode :
  NoDup (NPC.id <$> GameState.relationships gameState) →
  NoDup (NPC.id <$> GameState.relationships (resolveTurn gameState newNode)).
Proof.
  cbn. unfold stepF. intros Hnodup.
  assert (Hfold : ∀ updates acc,
            NoDup (NPC.id <$> acc.1) →
            NoDup (NPC.id <$> (foldl applyUpdate acc updates).1)).
  { induction updates as [|update updates IH]; intros acc Hacc;
      cbn [foldl]; [exact Hacc|].
    apply IH. by apply applyUpdate_ids. }
  by apply Hfold.
Qed.

Lemma roster_ids_stay_distinct_witness :
  NoDup (NPC.id <$> GameState.relationships sampleState)
  ∧ NPC.id <$> GameState.relationships (resolveTurn sampleState twoGreetings)
    = ["npc_mira"]
  ∧ NoDup (NPC.id
             <$> GameState.relationships (resolveTurn sampleState twoGreetings)).
Proof.
  assert (H : NoDup (NPC.id <$> GameState.relationships sampleState))
    by apply NoDup_nil_2.
  split; [exact H|]. split; [reflexivity|].
  apply (roster_ids_stay_distinct sampleState twoGreetings H).
Defined.

(** X10. If every affinity of the roster lies in [[0, 100]] before a turn,
    every affinity lies in [[0, 100]] after it. *)
Theorem turn_keeps_affinities_in_range gameState newNode :
  Forall inRange (GameState.relationships gameState) →
  Forall inRange (GameState.relationships (resolveTurn gameState newNode)).
Proof. apply stepF_inRange. Qed.

Lemma turn_keeps_affinities_in_range_witness :
  Forall inRange (GameState.relationships sampleState)
  ∧ Forall inRange
      (GameState.relationships (resolveTurn sampleState twoGreetings)).
Proof.
  assert (H : Forall inRange (GameState.relationships sampleState))
    by apply Forall_nil_2.
  split; [exact H|].
  apply (turn_keeps_affinities_in_range sampleState twoGreetings H).
Defined.

(** ** The codex *)

Lemma admitted_distinct {K} (f : CodexEntry.t → K) (g : CodexProposal.t → K)
    (codex : list CodexEntry.t) turn (proposals : list CodexProposal.t) :
  (∀ e, f (stampEntry turn e) = g e) →
  (∀ e c, fresh codex e → c ∈ codex → f c ≠ g e) →
  NoDup (f <$> codex) →
  NoDup (g <$> proposals) →
  NoDup (f <$> (codex ++ (stampEntry turn <$> filter (fresh codex) proposals))).
Proof.
  intros Hstamp Hfresh Hcodex Hproposals.
  assert (Hnew : f <$> (stampEntry turn <$> filter (fresh codex) proposals)
                 = g <$> filter (fresh codex) proposals).
  { induction (filter (fresh codex) proposals) as [|e l IH]; [done|].
    cbn. by rewrite Hstamp, IH. }
  rewrite fmap_app, Hnew. apply NoDup_app. split; [exact Hcodex|]. split.
  - intros x (c & -> & Hc)%list_elem_of_fmap (e & Heq & He)%list_elem_of_fmap.
    apply list_elem_of_filter in He as [He _]. by eapply Hfresh.
  - eapply sublist_NoDup; [exact Hproposals|].
    apply fmap_sublist, sublist_filter.
Qed.

(** X12. If the entries of the codex have distinct ids and the entries
    proposed by the payload have distinct ids, the entries of the codex
    after the turn have distinct ids; the same holds for the titles. *)
Theorem codex_stays_unique_for_distinct_proposals gameState newNode :
  let proposals := default [] (AdventureNode.newCodexEntries newNode) in
  let next := resolveTurn gameState newNode in
  (NoDup (CodexEntry.id <$> GameState.codex gameState) →
   NoDup (CodexProposal.id <$> proposals) →
   NoDup (CodexEntry.id <$> GameState.codex next))
  ∧ (NoDup (CodexEntry.title <$> GameState.codex gameState) →
     NoDup (CodexProposal.title <$> proposals) →
     NoDup (CodexEntry.title <$> GameState.codex next)).
Proof.
  intros proposals next. subst next. rewrite codex_admission. fold proposals.
  split; intros Hcodex Hproposals.
  - apply (admitted_distinct CodexEntry.id CodexProposal.id);
      [done| |done..].
    intros e c He Hc. by apply (proj1 (fresh_spec _ _) He c Hc).
  - apply (admitted_distinct CodexEntry.title CodexProposal.title);
      [done| |done..].
    intros e c He Hc. by apply (proj1 (fresh_spec _ _) He c Hc).
Qed.

Lemma codex_stays_unique_for_distinct_proposals_witness :
  let next := resolveTurn sampleState twoEntries in
  (NoDup (CodexEntry.id <$> GameState.codex sampleState)
   ∧ NoDup (CodexProposal.id <$> [ruinsEntry; towerEntry]))
  ∧ CodexEntry.id <$> GameState.codex next = ["lore_ruins"; "loc_tower"]
  ∧ NoDup (CodexEntry.id <$> GameState.codex next).
Proof.
  assert (Hcodex : NoDup (CodexEntry.id <$> GameState.codex sampleState))
    by apply NoDup_nil_2.
  assert (Hproposals : NoDup (CodexProposal.id <$> [ruinsEntry; towerEntry])).
  { cbn. apply NoDup_cons. split; [|apply NoDup_singleton].
    by intros [=]%list_elem_of_singleton. }
  split; [by split|]. split; [reflexivity|].
  by apply (codex_stays_unique_for_distinct_proposals sampleState twoEntries).
Defined.

(** X13. In every reachable state the turn count is at least 1 and every
    entry of the codex carries a turn number between 1 and the turn
    count. *)
Theorem reachable_codex_stamps gameState :
  reachable gameState →
  1 ≤ GameState.turnCount gameState
  ∧ Forall (λ c, 1 ≤ CodexEntry.turnUnlocked c ≤ GameState.turnCount gameState)
      (GameState.codex gameState).
Proof.
  induction 1 as [genre persona initialNode
                 | gameState newNode Hr [IHcount IHall]
                 | gameState skillId Hr IH
                 | gameState Hr [IHcount IHall]].
  - cbn. split; [lia|]. apply Forall_fmap, Forall_true. intros e. cbn. lia.
  - rewrite codex_admission. cbn. split; [lia|]. apply Forall_app. split.
    + eapply Forall_impl; [exact IHall|]. intros c Hc. cbn in Hc. lia.
    + apply Forall_fmap, Forall_true. intros e. cbn. lia.
  - destruct (handleUnlockSkill_cases gameState skillId)
      as [-> | (_ & _ & _ & ->)]; exact IH.
  - cbn. split; [exact IHcount|]. apply Forall_fmap.
    eapply Forall_impl; [exact IHall|]. by intros c Hc.
Qed.

Lemma reachable_codex_stamps_witness :
  let next := resolveTurn sampleState twoEntries in
  reachable next
  ∧ GameState.turnCount next = 2
  ∧ CodexEntry.turnUnlocked <$> GameState.codex next = [2; 2]
  ∧ 1 ≤ GameState.turnCount next.
Proof.
  assert (Hr : reachable (resolveTurn sampleState twoEntries)).
  { apply reachable_turn, reachable_start. }
  split; [exact Hr|]. split; [reflexivity|]. split; [reflexivity|].
  apply (reachable_codex_stamps _ Hr).
Defined.

Lemma markSeen_none_new (codex : list CodexEntry.t) :
  filter (λ c, truthy_bool (CodexEntry.isNew c) = true) (markSeen <$> codex)
  = [].
Proof.
  induction codex as [|c codex IH]; [done|].
  rewrite fmap_cons, filter_cons_False by done. exact IH.
Qed.

Lemma stamped_all_new turn (entries : list CodexProposal.t) :
  filter (λ c, truthy_bool (CodexEntry.isNew c) = true)
    (stampEntry turn <$> entries)
  = stampEntry turn <$> entries.
Proof.
  induction entries as [|e entries IH]; [done|].
  rewrite fmap_cons, filter_cons_True by done. by rewrite IH.
Qed.

Lemma fresh_markSeen codex entry :
  fresh (markSeen <$> codex) entry ↔ fresh codex entry.
Proof.
  rewrite !fresh_spec. split.
  - intros H c Hc. apply (H (markSeen c)). apply list_elem_of_fmap.
    by exists c.
  - intros H c' (c & -> & Hc)%list_elem_of_fmap. exact (H c Hc).
Qed.


(** ** World flags *)

(** X15. A turn overlays the flags of the payload on the flags of the
    state: a flag of the payload takes the payload's value, any other flag
    keeps its value, and no flag is ever removed. *)
Theorem flags_overlay gameState newNode (flag : string) :
  let updates := default ∅ (AdventureNode.worldUpdates newNode) in
  let next := resolveTurn gameState newNode in
  (∀ v, updates !! flag = Some v →
        GameState.worldState next !! flag = Some v)
  ∧ (updates !! flag = None →
     GameState.worldState next !! flag
     = GameState.worldState gameState !! flag)
  ∧ (is_Some (GameState.worldState gameState !! flag) →
     is_Some (GameState.worldState next !! flag)).
Proof.
  cbn. split; [|split].
  - intros v Hv. apply lookup_union_Some_raw. by left.
  - intros Hnone. by apply lookup_union_r.
  - intros [v Hv]. rewrite lookup_union.
    destruct (default ∅ (AdventureNode.worldUpdates newNode) !! flag);
      rewrite Hv; by eexists.
Qed.

(** ** The opening state *)

Lemma optnum_or_nonzero o d : d ≠ 0 → optnum_or o d ≠ 0.
Proof.
  intros Hd. destruct o as [x|]; cbn; [|done].
  unfold num_or. by case_bool_decide.
Qed.

(** X16. A game never starts with a stat or with a health of 0: each of
    the four stats that the opening payload gives as 0, or leaves out,
    becomes 5, a health given as 0, or left out, becomes 100, and any other
    value given is taken as it is. *)
Theorem start_never_zero genre persona initialNode :
  let start := handleStartGame genre persona initialNode in
  let given f := AdventureNode.statsUpdate initialNode ≫= f in
  let defaulted (f : StatsUpdate.t → option Z) (value fallback : Z) :=
    value ≠ 0
    ∧ (given f = Some 0 ∨ given f = None → value = fallback)
    ∧ (∀ v, given f = Some v → v ≠ 0 → value = v) in
  defaulted StatsUpdate.strength
    (PlayerStats.strength (GameState.stats start)) 5
  ∧ defaulted StatsUpdate.agility
      (PlayerStats.agility (GameState.stats start)) 5
  ∧ defaulted StatsUpdate.intelligence
      (PlayerStats.intelligence (GameState.stats start)) 5
  ∧ defaulted StatsUpdate.charisma
      (PlayerStats.charisma (GameState.stats start)) 5
  ∧ defaulted StatsUpdate.health (GameState.health start) 100.
Proof.
  cbn. unfold statsField.
  assert (H : ∀ o fallback,
            fallback ≠ 0 →
            optnum_or o fallback ≠ 0
            ∧ (o = Some 0 ∨ o = None → optnum_or o fallback = fallback)
            ∧ (∀ v, o = Some v → v ≠ 0 → optnum_or o fallback = v)).
  { intros o fallback Hf. split; [by apply optnum_or_nonzero|]. split.
    - by intros [-> | ->].
    - intros v -> Hv. cbn. by apply num_or_nonzero. }
  repeat split; by apply H.
Qed.

(** X11. A turn only appends to the codex: the codex after the turn is the
    codex before it followed by the proposals that share neither id nor
    title with an entry of the codex before the turn, in the order
    proposed, stamped with the new turn count and flagged as new; when
    every proposal shares an id or a title with such an entry, the codex is
    unchanged. *)
Theorem codex_grows_by_fresh_proposals gameState newNode :
  let proposals := default [] (AdventureNode.newCodexEntries newNode) in
  let next := resolveTurn gameState newNode in
  GameState.codex next
  = GameState.codex gameState
    ++ (stampEntry (GameState.turnCount gameState + 1)
          <$> filter (fresh (GameState.codex gameState)) proposals)
  ∧ GameState.codex gameState `prefix_of` GameState.codex next
  ∧ (Forall (λ e, ¬ fresh (GameState.codex gameState) e) proposals →
     GameState.codex next = GameState.codex gameState).
Proof.
  intros proposals next. subst next.
  pose proof (codex_admission gameState newNode) as Heq. cbn zeta in Heq.
  fold proposals in Heq. split; [exact Heq|]. split.
  - rewrite Heq. by eexists.
  - intros Hall. rewrite Heq.
    assert (Hnone : ∀ l, Forall (λ e, ¬ fresh (GameState.codex gameState) e) l →
                         filter (fresh (GameState.codex gameState)) l = []).
    { induction 1 as [|e l He _ IH]; [done|].
      rewrite filter_cons_False by exact He. exact IH. }
    by rewrite (Hnone _ Hall), app_nil_r.
Qed.

(** ** The response cache, continued *)

Lemma cache_miss_not_key k (c : Cache) :
  cache_get k c = None → k ∉ c.*1.
Proof.
  rewrite cache_get_None, list_find_None.
  intros Hall (e & -> & He)%list_elem_of_fmap.
  by eapply Forall_forall in Hall.
Qed.

Lemma cache_delete_keys k (c : Cache) :
  NoDup c.*1 → NoDup (cache_delete k c).*1.
Proof.
  intros Hnodup. eapply sublist_NoDup; [exact Hnodup|].
  apply fmap_sublist, sublist_filter.
Qed.

Lemma cache_save_keys k v (c : Cache) :
  cache_get k c = None → NoDup c.*1 → NoDup (cache_save k v c).*1.
Proof.
  intros Hmiss Hnodup.
  destruct (cache_save_miss k v c Hmiss) as (c' & Hsave & _ & Hc').
  assert (Hmiss' : cache_get k c' = None).
  { subst c'. case_bool_decide; [|done].
    destruct (cache_firstKey c); [by apply cache_delete_miss | done]. }
  assert (Hnodup' : NoDup c'.*1).
  { subst c'. case_bool_decide; [|done].
    destruct (cache_firstKey c); [by apply cache_delete_keys | done]. }
  rewrite Hsave, fmap_app. apply NoDup_app. split; [exact Hnodup'|]. split.
  - intros x Hx ->%list_elem_of_singleton.
    by apply (cache_miss_not_key k c' Hmiss').
  - apply NoDup_singleton.
Qed.

Lemma cache_get_cons k e (c : Cache) :
  cache_get k (e :: c) = if decide (e.1 = k) then Some e.2 else cache_get k c.
Proof.
  unfold cache_get. cbn. case_decide; [done|].
  by destruct (list_find _ c) as [[i e']|].
Qed.

Lemma cache_delete_other k k' (c : Cache) :
  k ≠ k' → cache_get k' (cache_delete k c) = cache_get k' c.
Proof.
  intros Hne. unfold cache_delete.
  induction c as [|e c IH]; [done|].
  rewrite filter_cons. case_decide as He.
  - rewrite !cache_get_cons. by rewrite IH.
  - rewrite IH, cache_get_cons.
    rewrite decide_False; [done|]. congruence.
Qed.

Lemma cache_get_app_l k (c c' : Cache) node :
  cache_get k c = Some node → cache_get k (c ++ c') = Some node.
Proof.
  unfold cache_get.
  destruct (list_find _ c) as [[i e]|] eqn:Hfind; [|done].
  intros [= <-]. by erewrite list_find_app_l.
Qed.

Section GeneratorInvariants.

Variable stateDump : GameState.t → string.
Variable env_API_KEY : option string.
Variable respond :
  nat → list AdventureNode.t → string → GameState.t →
  option GameSettings.t → Outcome AdventureNode.t.

Local Abbreviation generate := (generateAdventureNode stateDump env_API_KEY respond).
Local Abbreviation keyOf := (cacheKey stateDump).
Local Abbreviation choose := (handleChoice stateDump env_API_KEY respond).

(** X17. A generation call keeps the keys of the cache distinct, whether it
    hits, inserts or fails. *)
Theorem generate_keeps_keys_distinct history choice currentState settings svc :
  NoDup (responseCache svc).*1 →
  NoDup (responseCache
           (generateAdventureNode stateDump env_API_KEY respond
              history choice currentState settings svc).2).*1.
Proof.
  intros Hnodup. unfold generateAdventureNode.
  destruct (cache_get _ (responseCache svc)) eqn:Hget; [done|].
  destruct (request _ _ _ _ _ _) as [[message|data] n]; cbn; [done|].
  by apply cache_save_keys.
Qed.

(** X18. An insertion removes nothing but the earliest entry, and that one
    only at capacity: after a call that misses and inserts, every key that
    was cached before still returns its node, unless the cache held 50
    entries and the key was the first of them. *)
Theorem insertion_keeps_other_entries
    history choice currentState settings svc data n key' node' :
  cache_get (keyOf history choice currentState settings) (responseCache svc)
  = None →
  request env_API_KEY respond history choice currentState settings
    (requests svc) = (Returned data, n) →
  cache_get key' (responseCache svc) = Some node' →
  (length (responseCache svc) < CACHE_LIMIT)%nat
  ∨ cache_firstKey (responseCache svc) ≠ Some key' →
  cache_get key'
    (responseCache (generate history choice currentState settings svc).2)
  = Some node'.
Proof.
  intros Hmiss Hreq Hcached Hkept.
  rewrite (generate_miss _ _ _ _ _ _ _ _ _ _ Hmiss Hreq). cbn.
  destruct (cache_save_miss _ (resultNode data) _ Hmiss)
    as (c' & -> & _ & ->).
  apply cache_get_app_l. case_bool_decide as Hfull; [|done].
  destruct Hkept as [Hlen | Hfirst]; [lia|].
  destruct (cache_firstKey (responseCache svc)) as [firstKey|]; [|done].
  rewrite cache_delete_other; [done|]. congruence.
Qed.

(** X19. When no API key is configured, a turn whose action is not cached
    sends no request, leaves the game state and the history as they are,
    reports an error that mentions the API key and opens the settings. *)
Theorem missing_key_opens_settings choice app svc gameState :
  App.gameState app = Some gameState →
  App.history app ≠ [] →
  cache_get
    (keyOf (App.history app) choice gameState (Some (App.gameSettings app)))
    (responseCache svc) = None →
  GameSettings.apiKey (App.gameSettings app) = EmptyString →
  GameSettings.provider (App.gameSettings app) = Some openai
  ∨ truthy_str env_API_KEY = false →
  let after := choose choice app svc in
  App.showSettings after.1 = true
  ∧ (∃ message, App.error after.1 = Some message
                ∧ includes message "API Key" = true)
  ∧ App.gameState after.1 = Some gameState
  ∧ App.history after.1 = App.history app
  ∧ requests after.2 = requests svc
  ∧ responseCache after.2 = responseCache svc.
Proof.
  intros Hstate Hhistory Hmiss Hkey Hnone. cbn zeta.
  unfold handleChoice, generateAdventureNode, request.
  rewrite Hstate, Hmiss.
  destruct (last (App.history app)) as [lastNode|] eqn:Hlast;
    [|by apply last_None in Hlast].
  cbn. rewrite Hkey. cbn.
  destruct (GameSettings.provider (App.gameSettings app)) as [[|]|] eqn:Hp;
    cbn.
  - destruct Hnone as [? | ->]; [done|]. cbn.
    repeat split; try done. by eexists.
  - repeat split; try done. by eexists.
  - destruct Hnone as [? | ->]; [done|]. cbn.
    repeat split; try done. by eexists.
Qed.

End GeneratorInvariants.

Lemma missing_key_opens_settings_witness :
  let after := handleChoice dumpLocation None narrator "Look around"
                 keylessApp emptyService in
  App.showSettings after.1 = true
  ∧ App.error after.1
    = Some "API Key is missing. Please check your settings."
  ∧ requests after.2 = 0%nat.
Proof.
  destruct (missing_key_opens_settings dumpLocation None narrator
              "Look around" keylessApp emptyService sampleState)
    as (Hsettings & _ & _ & _ & Hrequests & _);
    [reflexivity | discriminate | reflexivity | reflexivity
    | right; reflexivity |].
  split; [exact Hsettings|]. split; [reflexivity | exact Hrequests].
Defined.

Lemma generate_keeps_keys_distinct_witness :
  NoDup (responseCache emptyService).*1
  ∧ length (responseCache (askAll fiftyActions emptyService)) = 50%nat
  ∧ NoDup (responseCache
             (ask [sampleNode] "Look around" emptyService).2).*1.
Proof.
  assert (H : NoDup (responseCache emptyService).*1) by apply NoDup_nil_2.
  split; [exact H|]. split; [vm_compute; reflexivity|].
  apply (generate_keeps_keys_distinct dumpLocation None narrator
           [sampleNode] "Look around" sampleState (Some sampleSettings)
           emptyService H).
Defined.

Lemma insertion_keeps_other_entries_witness :
  let first := ask [sampleNode] "Look around" emptyService in
  let second := ask [sampleNode] "Rest" first.2 in
  cache_get (cacheKey dumpLocation [sampleNode] "Look around" sampleState
               (Some sampleSettings)) (responseCache second.2)
  = Some (resultNode (withAward sampleNode 0)).
Proof.
  apply (insertion_keeps_other_entries dumpLocation None narrator
           [sampleNode] "Rest" sampleState (Some sampleSettings)
           (ask [sampleNode] "Look around" emptyService).2
           (withAward sampleNode 1) 2%nat);
    [reflexivity | reflexivity | reflexivity | left; vm_compute; lia].
Defined.

(** ** Strings *)

Lemma chars_inj s1 s2 : chars s1 = chars s2 → s1 = s2.
Proof.
  intros H. rewrite <- (string_of_list_ascii_of_string s1),
    <- (string_of_list_ascii_of_string s2). by rewrite H.
Qed.

Lemma chars_rev_app s1 s2 :
  chars (String.rev_app s1 s2) = reverse (chars s1) ++ chars s2.
Proof.
  revert s2. induction s1 as [|a s1 IH]; intros s2; [done|].
  change (chars (String.rev_app s1 (String a s2))
          = reverse (a :: chars s1) ++ chars s2).
  rewrite IH, reverse_cons, <- app_assoc. done.
Qed.

Lemma chars_rev s : chars (String.rev s) = reverse (chars s).
Proof. unfold String.rev. by rewrite chars_rev_app, app_nil_r. Qed.

Lemma chars_append s1 s2 : chars (s1 +:+ s2) = chars s1 ++ chars s2.
Proof.
  induction s1 as [|a s1 IH]; [done|].
  change (a :: chars (s1 +:+ s2) = a :: (chars s1 ++ chars s2)).
  by rewrite IH.
Qed.

Lemma chars_trimStart s : chars (trimStart s) = dropSpaces (chars s).
Proof.
  induction s as [|a s IH]; [done|].
  change (chars (if isSpace a then trimStart s else String a s)
          = if isSpace a then dropSpaces (chars s) else a :: chars s).
  by destruct (isSpace a).
Qed.

Lemma chars_trim s : chars (trim s) = trimmed (chars s).
Proof.
  unfold trim, trimmed.
  by rewrite chars_rev, chars_trimStart, chars_rev, chars_trimStart.
Qed.

Lemma chars_toLowerCase s : chars (toLowerCase s) = lowerChar <$> chars s.
Proof.
  induction s as [|a s IH]; [done|].
  change (lowerChar a :: chars (toLowerCase s)
          = lowerChar a :: (lowerChar <$> chars s)).
  by rewrite IH.
Qed.

Lemma isSpace_lowerChar a : isSpace (lowerChar a) = isSpace a.
Proof. destruct a as [[] [] [] [] [] [] [] []]; reflexivity. Qed.

Lemma lowerChar_idempotent a : lowerChar (lowerChar a) = lowerChar a.
Proof. destruct a as [[] [] [] [] [] [] [] []]; reflexivity. Qed.

Lemma dropSpaces_lower l :
  dropSpaces (lowerChar <$> l) = lowerChar <$> dropSpaces l.
Proof.
  induction l as [|a l IH]; [done|].
  cbn. rewrite isSpace_lowerChar. by destruct (isSpace a).
Qed.

Lemma trimmed_lower l : trimmed (lowerChar <$> l) = lowerChar <$> trimmed l.
Proof.
  unfold trimmed.
  by rewrite dropSpaces_lower, <- fmap_reverse, dropSpaces_lower, fmap_reverse.
Qed.

Lemma dropSpaces_noLeadingSpace l : noLeadingSpace (dropSpaces l).
Proof.
  induction l as [|a l IH]; [done|].
  cbn. by destruct (isSpace a) eqn:Ha.
Qed.

Lemma dropSpaces_id l : noLeadingSpace l → dropSpaces l = l.
Proof. destruct l as [|a l]; [done|]. cbn. by intros ->. Qed.

Lemma dropSpaces_suffix l : ∃ spaces, l = spaces ++ dropSpaces l.
Proof.
  induction l as [|a l [spaces IH]]; [by exists []|].
  cbn. destruct (isSpace a); [|by exists []].
  exists (a :: spaces). cbn. by rewrite <- IH.
Qed.

Lemma trimmed_noLeadingSpace l : noLeadingSpace (trimmed l).
Proof.
  unfold trimmed.
  pose proof (dropSpaces_noLeadingSpace l) as Hstart.
  destruct (dropSpaces_suffix (reverse (dropSpaces l))) as [spaces Hsplit].
  apply (f_equal reverse) in Hsplit.
  rewrite reverse_involutive, reverse_app in Hsplit.
  destruct (reverse (dropSpaces (reverse (dropSpaces l)))) as [|a rest];
    [done|].
  rewrite Hsplit in Hstart. exact Hstart.
Qed.

Lemma trimmed_idempotent l : trimmed (trimmed l) = trimmed l.
Proof.
  unfold trimmed at 1.
  rewrite (dropSpaces_id (trimmed l)) by apply trimmed_noLeadingSpace.
  unfold trimmed. rewrite reverse_involutive.
  by rewrite (dropSpaces_id (dropSpaces _)) by apply dropSpaces_noLeadingSpace.
Qed.

(** The normalisation of an action is idempotent, and it factors through
    the lower-casing. *)
Lemma normalise_idempotent choice :
  toLowerCase (trim (toLowerCase (trim choice))) = toLowerCase (trim choice).
Proof.
  apply chars_inj.
  rewrite !chars_toLowerCase, !chars_trim, chars_toLowerCase, chars_trim.
  rewrite trimmed_lower, trimmed_idempotent, <- list_fmap_compose.
  apply list_fmap_ext. intros i a _. apply lowerChar_idempotent.
Qed.

Lemma normalise_lower choice :
  toLowerCase (trim choice) = trim (toLowerCase choice).
Proof.
  apply chars_inj.
  by rewrite chars_toLowerCase, !chars_trim, chars_toLowerCase, trimmed_lower.
Qed.

(** X20. The cache key does not see the case of the action nor the white
    space around it: an action and its normal form have the same key, and
    so have two actions that differ only in the case of their letters. *)
Theorem cache_key_ignores_case_and_padding
    (stateDump : GameState.t → string) history choice currentState settings :
  cacheKey stateDump history (toLowerCase (trim choice)) currentState settings
  = cacheKey stateDump history choice currentState settings
  ∧ (∀ choice',
       toLowerCase choice' = toLowerCase choice →
       cacheKey stateDump history choice' currentState settings
       = cacheKey stateDump history choice currentState settings)
  ∧ (∀ choice',
       trim choice' = trim choice →
       cacheKey stateDump history choice' currentState settings
       = cacheKey stateDump history choice currentState settings).
Proof.
  unfold cacheKey. split; [|split].
  - by rewrite normalise_idempotent.
  - intros choice' Hlower.
    by rewrite (normalise_lower choice'), Hlower, <- normalise_lower.
  - by intros choice' ->.
Qed.

Lemma cache_key_ignores_case_and_padding_witness :
  toLowerCase "LOOK Around" = toLowerCase "look around"
  ∧ cacheKey dumpLocation [sampleNode] "LOOK Around" sampleState None
    = cacheKey dumpLocation [sampleNode] "look around" sampleState None.
Proof.
  split; [reflexivity|].
  destruct (cache_key_ignores_case_and_padding dumpLocation [sampleNode]
              "look around" sampleState None) as (_ & Hcase & _).
  by apply Hcase.
Defined.

Lemma length_substring_le m s :
  (String.length (String.substring 0 m s) ≤ m)%nat.
Proof.
  revert s. induction m as [|m IH]; intros [|a s]; cbn; try lia.
  specialize (IH s). lia.
Qed.

(** X23. The excerpt of the last turn in a cache key is never empty and
    never longer than 100 characters. *)
Theorem cache_key_excerpt_bounded
    (stateDump : GameState.t → string) history choice currentState settings :
  let key := cacheKey stateDump history choice currentState settings in
  (0 < String.length (CacheKey.last key) ≤ 100)%nat.
Proof.
  cbn. destruct (last history) as [lastNode|]; cbn; [|lia].
  case_bool_decide as Hempty; [cbn; lia|].
  pose proof (length_substring_le 100 (AdventureNode.storySegment lastNode)).
  destruct (String.substring 0 100 _); [done|]. cbn in *. lia.
Qed.

(** ** The endpoint of the OpenAI-compatible provider *)

Lemma prefix_append p s : String.prefix p (p +:+ s) = true.
Proof.
  induction p as [|a p IH]; [by destruct s|].
  change ((if ascii_dec a a then String.prefix p (p +:+ s) else false) = true).
  destruct (ascii_dec a a); [exact IH | done].
Qed.

Lemma rev_append s1 s2 :
  String.rev (s1 +:+ s2) = String.rev s2 +:+ String.rev s1.
Proof.
  apply chars_inj.
  by rewrite chars_rev, !chars_append, !chars_rev, reverse_app.
Qed.

Lemma endsWith_append s suffix : endsWith (s +:+ suffix) suffix = true.
Proof. unfold endsWith. rewrite rev_append. apply prefix_append. Qed.

(** X21. Whatever base URL is configured, with or without trailing
    slashes, white space around it or the path itself, the URL that the
    request is sent to ends in /chat/completions. *)
Theorem fetchUrl_ends_in_path settings :
  endsWith (fetchUrl settings) "/chat/completions" = true.
Proof.
  unfold fetchUrl. cbn zeta.
  set (baseUrl := stripTrailingSlashes (trim _)).
  destruct (endsWith baseUrl "/chat/completions") eqn:Hends; [exact Hends|].
  apply endsWith_append.
Qed.

(** ** Saving and loading *)

Lemma loadedState_id saved :
  GameState.level saved ≠ 0 → loadedState saved = saved.
Proof.
  intros Hlevel. destruct saved. unfold loadedState. cbn in *.
  by rewrite !num_or_0, num_or_nonzero.
Qed.

(** X22. A game saved successfully is restored by loading: after a save, a
    return to the menu that resets the session, and a load, the game state
    and the history are those that were saved and the game is in play; the
    level restored is never 0. *)
Theorem load_restores_saved_game sh gameState :
  App.gameState (Shell.app sh) = Some gameState →
  let restored := handleLoadGame (handleReset (handleSaveGame true sh)) in
  (∃ loaded,
     App.gameState (Shell.app restored) = Some loaded
     ∧ GameState.level loaded ≠ 0
     ∧ (GameState.level gameState ≠ 0 → loaded = gameState))
  ∧ App.history (Shell.app restored) = App.history (Shell.app sh)
  ∧ Shell.isPlaying restored = true.
Proof.
  intros Hstate. unfold handleSaveGame. rewrite Hstate. cbn.
  split; [|done]. exists (loadedState gameState). split; [done|]. split.
  - cbn. unfold num_or. by case_bool_decide.
  - apply loadedState_id.
Qed.

Lemma load_restores_saved_game_witness :
  let restored :=
    handleLoadGame (handleReset (handleSaveGame true sampleShell)) in
  App.gameState (Shell.app sampleShell) = Some sampleState
  ∧ App.gameState (Shell.app (handleReset (handleSaveGame true sampleShell)))
    = None
  ∧ App.gameState (Shell.app restored) = Some sampleState
  ∧ App.history (Shell.app restored) = [sampleNode].
Proof.
  split; [reflexivity|]. split; [reflexivity|].
  destruct (load_restores_saved_game sampleShell sampleState eq_refl)
    as ((loaded & Hloaded & _ & Hsame) & Hhistory & _).
  split; [|exact Hhistory]. rewrite Hloaded, Hsame; [done|]. discriminate.
Defined.

(** X24. When the storage refuses the write, saving keeps the previous
    save, reports the failure and leaves the game as it is, so that a load
    gives what it would have given before the attempt. *)
Theorem failed_save_keeps_previous sh gameState :
  App.gameState (Shell.app sh) = Some gameState →
  let failed := handleSaveGame false sh in
  Shell.savedGame failed = Shell.savedGame sh
  ∧ App.error (Shell.app failed)
    = Some "Could not save game to local storage."
  ∧ App.gameState (Shell.app failed) = Some gameState
  ∧ App.history (Shell.app failed) = App.history (Shell.app sh)
  ∧ App.gameState (Shell.app (handleLoadGame failed))
    = App.gameState (Shell.app (handleLoadGame sh))
  ∧ App.history (Shell.app (handleLoadGame failed))
    = App.history (Shell.app (handleLoadGame sh)).
Proof.
  intros Hstate. unfold handleSaveGame. rewrite Hstate. cbn.
  repeat split; try done.
  all: unfold handleLoadGame; cbn;
    by destruct (Shell.savedGame sh) as [[saved history]|].
Qed.

Lemma failed_save_keeps_previous_witness :
  App.gameState (Shell.app sampleShell) = Some sampleState
  ∧ Shell.savedGame (handleSaveGame false sampleShell) = None
  ∧ App.error (Shell.app (handleSaveGame false sampleShell))
    = Some "Could not save game to local storage.".
Proof.
  split; [reflexivity|].
  destruct (failed_save_keeps_previous sampleShell sampleState eq_refl)
    as (Hsaved & Herror & _).
  split; [exact Hsaved | exact Herror].
Defined.

(** ** Turn count and history *)


Lemma sampleApp_played : played dumpLocation None narrator sampleApp.
Proof. by eapply played_start. Qed.


Example fetchUrl_customSettings :
  fetchUrl customSettings = "https://example.test/v1/chat/completions".
Proof. reflexivity. Qed.

Lemma codex_grows_by_fresh_proposals_witness :
  let known := resolveTurn sampleState ruinsOnly in
  CodexEntry.id <$> GameState.codex known = ["lore_ruins"]
  ∧ GameState.codex (resolveTurn known ruinsOnly) = GameState.codex known.
Proof.
  split; [reflexivity|].
  destruct (codex_grows_by_fresh_proposals
              (resolveTurn sampleState ruinsOnly) ruinsOnly)
    as (_ & _ & Hsame).
  apply Hsame. apply Forall_singleton. vm_compute. discriminate.
Defined.

Lemma flags_overlay_witness :
  let first := resolveTurn sampleState flagNode in
  GameState.worldState first !! "gate_open" = Some (FlagBool true)
  ∧ GameState.worldState (resolveTurn first sampleNode) !! "gate_open"
    = Some (FlagBool true).
Proof.
  assert (Hfirst : GameState.worldState (resolveTurn sampleState flagNode)
                     !! "gate_open" = Some (FlagBool true)).
  { destruct (flags_overlay sampleState flagNode "gate_open") as [Hset _].
    apply Hset. cbn. apply lookup_singleton_eq. }
  split; [exact Hfirst|].
  destruct (flags_overlay (resolveTurn sampleState flagNode) sampleNode
              "gate_open") as (_ & Hkeep & _).
  rewrite Hkeep; [exact Hfirst|]. cbn. apply lookup_empty.
Defined.

Lemma start_never_zero_witness :
  GameState.health (handleStartGame "High Fantasy" None (healthNode 0)) = 100.
Proof.
  destruct (start_never_zero "High Fantasy" None (healthNode 0))
    as (_ & _ & _ & _ & _ & Hhealth & _).
  apply Hhealth. left. reflexivity.
Defined.
